(** * startup-exporter: the aggregation-and-gating engine of [export.go]

    A shallow embedding of the exporter side of the program: the record
    store fed by [receiveStartupInfo], the gate [shouldUpdate], the
    aggregator [doUpdate] and the body of the polling loop of
    [updateDeployScaleLatency].

    Conventions.
    - Go [string]s are byte strings ([string] of [ascii]).
    - [int64] values are [Z]; where Go's arithmetic can leave the range the
      wrap-around is written out with [wrap64].
    - [int] counters ([targetLen], [len(...)]) are [Z]: they count elements
      of slices that are held in memory, so they stay far inside the range.
    - [float64] is the kernel's binary64 type [float]; [float64_of_int] is
      Go's conversion [float64(x)] (round to nearest, ties to even).
    - [map[meta]T] is [gmap meta T]; [map[string]struct{}] is [gset string].
    - a [[]*corev1.Pod] is a [list (option Pod)]: [None] is the nil pointer.
    - the two gauge vectors are maps from the label values to the last value
      set; a scoring run returns the list of [Set] calls it makes, which the
      loop body then applies to the vectors.
    - [mu] serialises the handler and the store lookups; one call of the
      handler or of [doUpdate] is modelled as running on one snapshot of
      the store. Logging is left out. *)

From Stdlib Require Import ZArith Ascii String Floats.
From stdpp Require Import gmap strings list.

Local Open Scope string_scope.
Local Open Scope Z_scope.

(** ** Machine numbers *)

Definition MaxInt64 : Z := 9223372036854775807.
Definition MinInt64 : Z := -9223372036854775808.

Definition inInt64 (z : Z) : Prop := MinInt64 ≤ z ≤ MaxInt64.

(** Two's-complement wrap-around of a 64-bit signed operation. *)
Definition wrap64 (z : Z) : Z := (z + 2 ^ 63) `mod` 2 ^ 64 - 2 ^ 63.

(** [float64(x)] for an integer [x]. *)
Definition float64_of_int (z : Z) : float :=
  SF2Prim (binary_normalize prec emax z 0 false).

(** ** Go's [strings] functions used by the exporter *)

Module strings.

Definition inCutset (a : ascii) (cutset : string) : bool :=
  existsb (Ascii.eqb a) (list_ascii_of_string cutset).

Fixpoint TrimLeft (s cutset : string) : string :=
  match s with
  | EmptyString => EmptyString
  | String a s' => if inCutset a cutset then TrimLeft s' cutset else s
  end.

Fixpoint TrimRight (s cutset : string) : string :=
  match s with
  | EmptyString => EmptyString
  | String a s' =>
      match TrimRight s' cutset with
      | EmptyString => if inCutset a cutset then EmptyString else String a EmptyString
      | t => String a t
      end
  end.

(** [strings.Trim]: all leading and trailing bytes of [cutset] removed
    (the exporter's cutset is one ASCII space, so bytes and code points
    coincide). *)
Definition Trim (s cutset : string) : string :=
  TrimRight (TrimLeft s cutset) cutset.

Definition HasPrefix (s pre : string) : bool := String.prefix pre s.

Fixpoint drop (n : nat) (s : string) : string :=
  match n, s with
  | O, _ => s
  | S n', String _ s' => drop n' s'
  | S _, EmptyString => EmptyString
  end.

Definition TrimPrefix (s pre : string) : string :=
  if HasPrefix s pre then drop (String.length pre) s else s.

(** [strings.Split] for a separator of one byte: the pieces between the
    separators, empty pieces included; a string without the separator is
    its only piece. *)
Fixpoint Split (s : string) (sep : ascii) : list string :=
  match s with
  | EmptyString => [EmptyString]
  | String a s' =>
      if Ascii.eqb a sep then EmptyString :: Split s' sep
      else
        match Split s' sep with
        | piece :: pieces => String a piece :: pieces
        | [] => [String a EmptyString]
        end
  end.

End strings.

(** ** Go's [strconv.Atoi] (64-bit [int]) *)

Module strconv.

Definition digit (a : ascii) : option Z :=
  let n := Z.of_nat (nat_of_ascii a) in
  if (48 <=? n) && (n <=? 57) then Some (n - 48) else None.

(** The value of a string of decimal digits, after the digits read so far
    have given [n]; [None] at a byte that is not a digit. *)
Fixpoint digits (s : string) (n : Z) : option Z :=
  match s with
  | EmptyString => Some n
  | String a s' =>
      match digit a with
      | Some v => digits s' (10 * n + v)
      | None => None
      end
  end.

(** An optional sign, then at least one decimal digit and nothing else;
    [None] is a syntax error or a value out of the range of [int]. *)
Definition Atoi (s : string) : option Z :=
  let '(neg, body) :=
    match s with
    | String "-" r => (true, r)
    | String "+" r => (false, r)
    | _ => (false, s)
    end in
  match body with
  | EmptyString => None
  | _ =>
      match digits body 0 with
      | Some n =>
          let v := if neg : bool then - n else n in
          if (MinInt64 <=? v) && (v <=? MaxInt64) then Some v else None
      | None => None
      end
  end.

End strconv.

(** ** Constants of [export.go] *)

Definition defaultContainerdK8sNamespace : string := "k8s.io".
Definition containerNamePrefix : string := "containerd://".
Definition maxContainerNameLength : nat := 10.

(** ** Data model *)

(** [api.go]. [End] and [Type] are reserved words here, hence the
    underscore. *)
Record containerStartupInfo := ContainerStartupInfo {
  Name : string;
  Namespace : string;
  Start : Z;
  End_ : Z;
  Type_ : string
}.

Record meta := Meta {
  name : string;
  namespace : string
}.

#[global] Instance meta_eq_dec : EqDecision meta.
Proof. solve_decision. Defined.

#[global] Instance meta_countable : Countable meta.
Proof.
  apply (inj_countable' (λ m, (name m, namespace m)) (λ p, Meta p.1 p.2)).
  by intros [].
Defined.

(** The parts of [corev1.Pod] and [appsv1.Deployment] that the exporter
    reads. *)
Record Container := { container_Name : string }.

Record ContainerStatus := {
  cs_Name : string;
  ContainerID : string
}.

Record Pod := {
  pod_Name : string;
  pod_Namespace : string;
  Spec_Containers : list Container;
  Status_ContainerStatuses : list ContainerStatus
}.

Record Deployment := {
  deploy_Name : string;
  deploy_Namespace : string;
  Spec_Selector : option (list (string * string))
}.

(** The label values of a gauge: deploy_name, namespace. *)
Abbreviation GaugeVec := (gmap (string * string) float).

Inductive GaugeWrite :=
  | SetAvgStartupLatency (labels : string * string) (v : float)
  | SetScaleLatency (labels : string * string) (v : float).

(** The package-level variables. *)
Record State := {
  allInfo : gmap meta containerStartupInfo;
  updatedDeploy : gmap meta (gset string);
  deployPodsAvgStartupLatency : GaugeVec;
  deployScaleLatency : GaugeVec
}.

Definition initState : State :=
  {| allInfo := ∅; updatedDeploy := ∅;
     deployPodsAvgStartupLatency := ∅; deployScaleLatency := ∅ |}.

(** ** [receiveStartupInfo] *)

Definition StatusOK : Z := 200.
Definition StatusBadRequest : Z := 400.

(** An HTTP request as the handler sees it: the method, and what
    [json.NewDecoder(r.Body).Decode(&info)] yields ([None]: an error). *)
Record Request := {
  Method : string;
  Decoded : option containerStartupInfo
}.

Definition MethodPost : string := "POST".

Definition receiveStartupInfo (r : Request) (st : State) : State * Z :=
  if negb (String.eqb (Method r) MethodPost) then (st, StatusBadRequest)
  else
    match Decoded r with
    | None => (st, StatusBadRequest)
    | Some info =>
        let m := {| name := Name info; namespace := Namespace info |} in
        match allInfo st !! m with
        | Some _ => (st, StatusOK)
        | None =>
            ({| allInfo := <[m := info]> (allInfo st);
                updatedDeploy := updatedDeploy st;
                deployPodsAvgStartupLatency := deployPodsAvgStartupLatency st;
                deployScaleLatency := deployScaleLatency st |}, StatusOK)
        end
    end.

(** A sequence of requests, served one after the other (the handler holds
    [mu] for the whole update); the status codes come out in order. *)
Fixpoint receiveAll (rs : list Request) (st : State) : State * list Z :=
  match rs with
  | [] => (st, [])
  | r :: rs' =>
      let '(st1, code) := receiveStartupInfo r st in
      let '(st2, codes) := receiveAll rs' st1 in
      (st2, code :: codes)
  end.

(** A well-formed push of the record [info]. *)
Definition pushOf (info : containerStartupInfo) : Request :=
  {| Method := MethodPost; Decoded := Some info |}.

Definition identity (info : containerStartupInfo) : meta :=
  {| name := Name info; namespace := Namespace info |}.

(** The first record of [infos] whose identity is [m]. *)
Definition firstPushed (m : meta) (infos : list containerStartupInfo)
  : option containerStartupInfo :=
  List.find (λ info, bool_decide (identity info = m)) infos.

(** ** The pod-set tracker: [getPodNames] and [equal] *)

(** The body of the loop of [getPodNames]. *)
Definition addPodName (podNames : gset string) (p : option Pod) : gset string :=
  match p with
  | Some p => {[pod_Name p]} ∪ podNames
  | None => podNames
  end.

Definition getPodNames (pods : list (option Pod)) : gset string :=
  foldl addPodName ∅ pods.

(** [for k := range a] visits the keys in an unspecified order; the result
    does not depend on it, and [elements] fixes one. *)
Definition equal (a b : gset string) : bool :=
  if negb (size a =? size b)%nat then false
  else forallb (λ k, bool_decide (k ∈ b)) (elements a).

(** ** The gate: [shouldUpdate] *)

(** [strings.Trim(c.ContainerID, " ") == ""] *)
Definition containerNotRunning (c : ContainerStatus) : bool :=
  String.eqb (strings.Trim (ContainerID c) " ") "".

(** The loop over [currentPods]; [None] is the early [return false]. *)
Fixpoint shouldUpdate_pods (currentPods : list (option Pod))
    (currentPodNames : gset string) : option (gset string) :=
  match currentPods with
  | [] => Some currentPodNames
  | None :: ps => shouldUpdate_pods ps currentPodNames
  | Some p :: ps =>
      if (length (Status_ContainerStatuses p) =? 0)%nat then None
      else if existsb containerNotRunning (Status_ContainerStatuses p) then None
      else shouldUpdate_pods ps ({[pod_Name p]} ∪ currentPodNames)
  end.

Definition shouldUpdate (updatedDeploy : gmap meta (gset string)) (m : meta)
    (currentPods : list (option Pod)) : bool :=
  if (length currentPods =? 0)%nat then false
  else
    match shouldUpdate_pods currentPods ∅ with
    | None => false
    | Some currentPodNames =>
        match updatedDeploy !! m with
        | None => true
        | Some lastPodNames => negb (equal lastPodNames currentPodNames)
        end
    end.

(** ** The aggregator: [doUpdate] *)

Definition containerShortName (name : string) : string :=
  if (maxContainerNameLength <? String.length name)%nat
  then String.substring 0 maxContainerNameLength name
  else name.

(** The local variables of [doUpdate] that the loops update. *)
Record Acc := {
  targetLen : Z;
  total : float;
  startTimestamp : Z;
  endTimestamp : Z;
  unreceivedNames : list string
}.

Definition initAcc : Acc :=
  {| targetLen := 0; total := 0%float; startTimestamp := MaxInt64;
     endTimestamp := 0; unreceivedNames := [] |}.

(** [errors.Errorf("container %s(%s) of deployment %s(%s) is not running by
    containerd", c.Name, c.ContainerID, p.Name, p.Namespace)] *)
Definition notContainerdError (c : ContainerStatus) (p : Pod) : string :=
  "container " +:+ cs_Name c +:+ "(" +:+ ContainerID c +:+ ") of deployment "
  +:+ pod_Name p +:+ "(" +:+ pod_Namespace p +:+ ") is not running by containerd".

(** The locked block of the inner loop, for the record name [name]. *)
Definition lookupInfo (allInfo : gmap meta containerStartupInfo)
    (oldPod : bool) (name : string) (a : Acc) : Acc :=
  match allInfo !! {| name := name; namespace := defaultContainerdK8sNamespace |} with
  | Some info =>
      let startTimestamp1 :=
        if oldPod then startTimestamp a
        else if Start info <? startTimestamp a then Start info
        else startTimestamp a in
      let endTimestamp1 :=
        if oldPod then endTimestamp a
        else if End_ info >? endTimestamp a then End_ info
        else endTimestamp a in
      {| targetLen := targetLen a;
         total := (total a + float64_of_int (wrap64 (End_ info - Start info)))%float;
         startTimestamp := startTimestamp1;
         endTimestamp := endTimestamp1;
         unreceivedNames := unreceivedNames a |}
  | None =>
      {| targetLen := targetLen a;
         total := total a;
         startTimestamp := startTimestamp a;
         endTimestamp := endTimestamp a;
         unreceivedNames := unreceivedNames a ++ [containerShortName name] |}
  end.

(** The loop over [p.Status.ContainerStatuses]; [inl] is the early
    [return false, errors.Errorf(...)]. *)
Fixpoint doUpdate_statuses (allInfo : gmap meta containerStartupInfo)
    (oldPod : bool) (p : Pod) (cs : list ContainerStatus) (a : Acc)
  : string + Acc :=
  match cs with
  | [] => inr a
  | c :: cs' =>
      if strings.HasPrefix (ContainerID c) containerNamePrefix then
        let name := strings.TrimPrefix (ContainerID c) containerNamePrefix in
        doUpdate_statuses allInfo oldPod p cs' (lookupInfo allInfo oldPod name a)
      else inl (notContainerdError c p)
  end.

Definition addTarget (n : Z) (a : Acc) : Acc :=
  {| targetLen := targetLen a + n;
     total := total a;
     startTimestamp := startTimestamp a;
     endTimestamp := endTimestamp a;
     unreceivedNames := unreceivedNames a |}.

(** The loop over [pods]. *)
Fixpoint doUpdate_pods (allInfo : gmap meta containerStartupInfo)
    (lastPodNames : gset string) (pods : list (option Pod)) (a : Acc)
  : string + Acc :=
  match pods with
  | [] => inr a
  | None :: ps => doUpdate_pods allInfo lastPodNames ps a
  | Some p :: ps =>
      let a1 := addTarget (Z.of_nat (length (Spec_Containers p))) a in
      let oldPod := bool_decide (pod_Name p ∈ lastPodNames) in
      match doUpdate_statuses allInfo oldPod p (Status_ContainerStatuses p) a1 with
      | inl err => inl err
      | inr a2 => doUpdate_pods allInfo lastPodNames ps a2
      end
  end.

Definition receivedLen (a : Acc) : Z :=
  targetLen a - Z.of_nat (length (unreceivedNames a)).

Definition labelsOf (deploy : Deployment) : string * string :=
  (deploy_Name deploy, deploy_Namespace deploy).

(** The result [(updated, err)] together with the gauge [Set] calls made,
    in order. *)
Definition doUpdate (allInfo : gmap meta containerStartupInfo)
    (updatedDeploy : gmap meta (gset string))
    (deploy : Deployment) (pods : list (option Pod))
  : (bool * option string) * list GaugeWrite :=
  let lastPodNames :=
    match updatedDeploy !! {| name := deploy_Name deploy;
                              namespace := deploy_Namespace deploy |} with
    | Some l => l
    | None => ∅
    end in
  match doUpdate_pods allInfo lastPodNames pods initAcc with
  | inl err => ((false, Some err), [])
  | inr a =>
      if receivedLen a =? 0 then ((false, None), [])
      else if negb (receivedLen a =? targetLen a) then ((false, None), [])
      else
        let avg := (total a / float64_of_int (receivedLen a))%float in
        ((true, None),
         SetAvgStartupLatency (labelsOf deploy) avg ::
         (if endTimestamp a >? startTimestamp a
          then [SetScaleLatency (labelsOf deploy)
                  (float64_of_int (wrap64 (endTimestamp a - startTimestamp a)))]
          else []))
  end.

(** ** The polling loop of [updateDeployScaleLatency] *)

Definition applyWrite (st : State) (w : GaugeWrite) : State :=
  match w with
  | SetAvgStartupLatency l v =>
      {| allInfo := allInfo st;
         updatedDeploy := updatedDeploy st;
         deployPodsAvgStartupLatency := <[l := v]> (deployPodsAvgStartupLatency st);
         deployScaleLatency := deployScaleLatency st |}
  | SetScaleLatency l v =>
      {| allInfo := allInfo st;
         updatedDeploy := updatedDeploy st;
         deployPodsAvgStartupLatency := deployPodsAvgStartupLatency st;
         deployScaleLatency := <[l := v]> (deployScaleLatency st) |}
  end.

Definition setUpdatedDeploy (m : meta) (podNames : gset string) (st : State) : State :=
  {| allInfo := allInfo st;
     updatedDeploy := <[m := podNames]> (updatedDeploy st);
     deployPodsAvgStartupLatency := deployPodsAvgStartupLatency st;
     deployScaleLatency := deployScaleLatency st |}.

(** The body of [for _, d := range deployments]: [d] is the listed pointer
    and [pods] is what [podLister.Pods(d.Namespace).List(...)] returned for
    it (its error is only logged). *)
Definition visitDeployment (st : State) (d : option Deployment)
    (pods : list (option Pod)) : State :=
  match d with
  | None => st
  | Some d =>
      let m := {| name := deploy_Name d; namespace := deploy_Namespace d |} in
      match Spec_Selector d with
      | None => st
      | Some _ =>
          if negb (shouldUpdate (updatedDeploy st) m pods) then st
          else
            let '((updated, err), writes) :=
              doUpdate (allInfo st) (updatedDeploy st) d pods in
            let st1 := foldl applyWrite st writes in
            match err with
            | Some _ => st1
            | None =>
                if updated then setUpdatedDeploy m (getPodNames pods) st1
                else st1
            end
      end
  end.

(** One iteration of the outer [for]: [inl] when listing the deployments
    failed, else the deployments with the pods listed for each. *)
Definition Listing : Type := string + list (option Deployment * list (option Pod)).

Definition cycle (st : State) (l : Listing) : State :=
  match l with
  | inl _ => st
  | inr ds => foldl (λ st dp, visitDeployment st dp.1 dp.2) st ds
  end.

(** What happens to the package state over time: pushes served by the
    handler and iterations of the polling loop, in the order in which they
    take effect. *)
Inductive Event :=
  | Push (r : Request)
  | Tick (l : Listing).

Definition step (st : State) (e : Event) : State :=
  match e with
  | Push r => (receiveStartupInfo r st).1
  | Tick l => cycle st l
  end.

Definition run (st : State) (es : list Event) : State := foldl step st es.

(** * Vocabulary of the properties *)

(** ** Pushes *)

(** The record of a well-formed push: a request with method POST whose
    body decodes. *)
Definition acceptedRecord (e : Event) : option containerStartupInfo :=
  match e with
  | Push r => if String.eqb (Method r) MethodPost then Decoded r else None
  | Tick _ => None
  end.

(** The records of the well-formed pushes among the events, in order. *)
Definition accepted (es : list Event) : list containerStartupInfo :=
  omap acceptedRecord es.

(** ** Settled pods *)

(** The ASCII white space of Go's [unicode.IsSpace]: tab, line feed,
    vertical tab, form feed, carriage return and space. *)
Definition isSpace (a : ascii) : bool :=
  let n := nat_of_ascii a in
  (n =? 32)%nat || ((9 <=? n)%nat && (n <=? 13)%nat).

(** Empty, or white space only. *)
Definition whitespaceOnly (s : string) : bool :=
  forallb isSpace (list_ascii_of_string s).

(** Empty, or space characters (U+0020) only. *)
Definition spacesOnly (s : string) : bool :=
  forallb (Ascii.eqb " ") (list_ascii_of_string s).

(** A pod that reports no container status, or a status whose container
    ID is blank in the sense of [blank]. *)
Definition unsettledBy (blank : string → bool) (p : Pod) : Prop :=
  Status_ContainerStatuses p = []
  ∨ ∃ c, c ∈ Status_ContainerStatuses p ∧ blank (ContainerID c) = true.

(** Every live (non-nil) pod passes the check. *)
Definition settledBy (blank : string → bool) (pods : list (option Pod)) : Prop :=
  ∀ p, Some p ∈ pods → ¬ unsettledBy blank p.

(** ** What a scoring run looks at *)

(** The non-nil pods, in order. *)
Definition livePods (pods : list (option Pod)) : list Pod := omap id pods.

(** The containers declared in the pod specs. *)
Definition targetCount (pods : list (option Pod)) : Z :=
  foldr (λ p n, Z.of_nat (length (Spec_Containers p)) + n) 0 (livePods pods).

Definition recordName (c : ContainerStatus) : string :=
  strings.TrimPrefix (ContainerID c) containerNamePrefix.

(** The record names looked up, each with the pod it is looked up for, in
    the order of the lookups: one per reported container status. *)
Definition lookups (pods : list (option Pod)) : list (Pod * string) :=
  p ← livePods pods; (λ c, (p, recordName c)) <$> Status_ContainerStatuses p.

Definition storeGet (allInfo : gmap meta containerStartupInfo) (n : string)
  : option containerStartupInfo :=
  allInfo !! {| name := n; namespace := defaultContainerdK8sNamespace |}.

(** The lookups that find no record. *)
Definition unreceivedCount (allInfo : gmap meta containerStartupInfo)
    (pods : list (option Pod)) : Z :=
  Z.of_nat (length (filter (λ l, storeGet allInfo l.2 = None) (lookups pods))).

Definition receivedCount (allInfo : gmap meta containerStartupInfo)
    (pods : list (option Pod)) : Z :=
  targetCount pods - unreceivedCount allInfo pods.

(** The records found, each with the pod it was found for. *)
Definition received (allInfo : gmap meta containerStartupInfo)
    (pods : list (option Pod)) : list (Pod * containerStartupInfo) :=
  omap (λ l, pair l.1 <$> storeGet allInfo l.2) (lookups pods).

(** The records found for pods whose name is not in [lastPodNames]. *)
Definition receivedNew (allInfo : gmap meta containerStartupInfo)
    (lastPodNames : gset string) (pods : list (option Pod))
  : list containerStartupInfo :=
  snd <$> filter (λ e, pod_Name e.1 ∉ lastPodNames) (received allInfo pods).

(** [end - start] of a record, as the [float64] that is added up. *)
Definition latency (info : containerStartupInfo) : float :=
  float64_of_int (wrap64 (End_ info - Start info)).

(** The sum of the latencies, added up in [float64] in the order given. *)
Definition sumLatency (infos : list containerStartupInfo) : float :=
  foldl (λ t info, (t + latency info)%float) 0%float infos.

(** The window bounds: the least start (capped by [math.MaxInt64]) and the
    greatest end (at least 0). *)
Definition minStart (infos : list containerStartupInfo) : Z :=
  foldl Z.min MaxInt64 (Start <$> infos).

Definition maxEnd (infos : list containerStartupInfo) : Z :=
  foldl Z.max 0 (End_ <$> infos).

(** Every reported container ID carries the prefix [containerd://]. *)
Definition prefixOK (pods : list (option Pod)) : Prop :=
  ∀ p c, Some p ∈ pods → c ∈ Status_ContainerStatuses p →
         strings.HasPrefix (ContainerID c) containerNamePrefix = true.

(** The local variables of [doUpdate] after the lookups [L] have been added
    to [a], with [n] more containers declared. *)
Definition summary (allInfo : gmap meta containerStartupInfo)
    (lastPodNames : gset string) (a : Acc) (n : Z) (L : list (Pod * string)) : Acc :=
  let rcv := omap (λ l, pair l.1 <$> storeGet allInfo l.2) L in
  let new := snd <$> filter (λ e, pod_Name e.1 ∉ lastPodNames) rcv in
  {| targetLen := targetLen a + n;
     total := foldl (λ t info, (t + latency info)%float) (total a) (snd <$> rcv);
     startTimestamp := foldl Z.min (startTimestamp a) (Start <$> new);
     endTimestamp := foldl Z.max (endTimestamp a) (End_ <$> new);
     unreceivedNames :=
       unreceivedNames a ++
       ((λ l, containerShortName l.2) <$>
          filter (λ l, storeGet allInfo l.2 = None) L) |}.

(** [prefixOK], decided. *)
Definition prefixOKb (pods : list (option Pod)) : bool :=
  forallb (λ p, forallb (λ c, strings.HasPrefix (ContainerID c) containerNamePrefix)
                  (Status_ContainerStatuses p))
          (livePods pods).

(** The tracked pod set of a deployment, empty when there is none. *)
Definition lastPodNamesOf (updatedDeploy : gmap meta (gset string))
    (deploy : Deployment) : gset string :=
  default ∅ (updatedDeploy !! {| name := deploy_Name deploy;
                                 namespace := deploy_Namespace deploy |}).

Definition keyOf (deploy : Deployment) : meta :=
  {| name := deploy_Name deploy; namespace := deploy_Namespace deploy |}.

(** ** Sample data *)

Definition samplePod (n : string) (declared : nat) (ids : list string) : Pod :=
  {| pod_Name := n; pod_Namespace := "default";
     Spec_Containers := replicate declared {| container_Name := "app" |};
     Status_ContainerStatuses :=
       (λ i, {| cs_Name := "app"; ContainerID := i |}) <$> ids |}.

Definition sampleRecord (n : string) (s e : Z) : containerStartupInfo :=
  {| Name := n; Namespace := defaultContainerdK8sNamespace;
     Start := s; End_ := e; Type_ := "default" |}.

Definition sampleDeploy : Deployment :=
  {| deploy_Name := "web"; deploy_Namespace := "default";
     Spec_Selector := Some [("app", "web")] |}.

Definition sampleStore : gmap meta containerStartupInfo :=
  allInfo (receiveAll [pushOf (sampleRecord "a" 100 150);
                       pushOf (sampleRecord "b" 200 260)] initState).1.

(** A scale-up in two steps: two pods are scored, then a third pod shows up
    after its record has been pushed. *)
Definition scalePods1 : list (option Pod) :=
  [Some (samplePod "web-0" 1 ["containerd://a"]);
   Some (samplePod "web-1" 1 ["containerd://b"])].

Definition scalePods2 : list (option Pod) :=
  scalePods1 ++ [Some (samplePod "web-2" 1 ["containerd://c"])].

Definition scaleState : State :=
  run initState
      [Push (pushOf (sampleRecord "a" 100 150));
       Push (pushOf (sampleRecord "b" 120 300));
       Tick (inr [(Some sampleDeploy, scalePods1)]);
       Push (pushOf (sampleRecord "c" 400 450))].

(** A horizontal tab. *)
Definition tab : string := String (ascii_of_nat 9) EmptyString.

(** * The collector: [collect.go] *)

(** What the collector finds for [<namespace>/<dir>/startup]: [os.Stat]
    fails, [ioutil.ReadFile] fails, or the bytes of the file. *)
Inductive StartupFile :=
  | NoStartup
  | Unreadable
  | Content (bs : string).

(** An entry of [ioutil.ReadDir(namespace)] with its startup file. *)
Record DirEntry := {
  dir_Name : string;
  dir_Startup : StartupFile
}.

(** The cutset [" \t\n"]. *)
Definition blanks : string :=
  String " " (String (ascii_of_nat 9) (String (ascii_of_nat 10) EmptyString)).

Definition newline : ascii := ascii_of_nat 10.

(** The body of the loop of [collect] for one entry; [None] is a
    [continue]. *)
Definition collectEntry (namespace : string) (dir : DirEntry)
  : option containerStartupInfo :=
  match dir_Startup dir with
  | NoStartup => None
  | Unreadable => None
  | Content bs =>
      let content := strings.Trim bs blanks in
      let lines := strings.Split content newline in
      match lines with
      | line0 :: line1 :: _ =>
          match strconv.Atoi line0 with
          | None => None
          | Some start =>
              match strconv.Atoi line1 with
              | None => None
              | Some end_ =>
                  if end_ =? 0 then None
                  else Some {| Name := dir_Name dir; Namespace := namespace;
                               Start := start; End_ := end_; Type_ := "" |}
              end
          end
      | _ => None
      end
  end.

(** [collect]: [readDir] is the result of [ioutil.ReadDir(namespace)],
    [None] when it fails. *)
Definition collect (namespace : string) (readDir : option (list DirEntry))
  : list containerStartupInfo :=
  match readDir with
  | None => []
  | Some dirs =>
      foldl (λ info dir,
               match collectEntry namespace dir with
               | Some i => (info ++ [i])%list
               | None => info
               end) [] dirs
  end.

(** One round of the loop of [collectCmd], up to the push: [root] is the
    result of [ioutil.ReadDir(".")] (the names), [fs] gives the result of
    [ioutil.ReadDir] for a namespace. [None]: the command returns the read
    error. *)
Definition collectAll (ns : string) (root : option (list string))
    (fs : string → option (list DirEntry)) : option (list containerStartupInfo) :=
  if String.eqb ns "" then
    match root with
    | None => None
    | Some dirs => Some (foldl (λ all dir, (all ++ collect dir (fs dir))%list) [] dirs)
    end
  else Some ([] ++ collect ns (fs ns))%list.

(** The outcome of [http.Post]: an error, or a response with its status
    code. *)
Inductive PostResult :=
  | PostError
  | PostStatus (code : Z).

Inductive PushError :=
  | FailedToPost
  | ReceivedStatus (code : Z).

(** [push]: [post] is [http.Post] of the marshalled record, acting on the
    state [S] of the other side. The result is the error returned, [None]
    for nil. ([json.Marshal] does not fail on this struct.) *)
Fixpoint push {S : Type} (post : containerStartupInfo → S → S * PostResult)
    (info : list containerStartupInfo) (s : S) : S * option PushError :=
  match info with
  | [] => (s, None)
  | i :: rest =>
      match post i s with
      | (s1, PostError) => (s1, Some FailedToPost)
      | (s1, PostStatus code) =>
          if negb (code =? StatusOK) then (s1, Some (ReceivedStatus code))
          else push post rest s1
      end
  end.

(** [http.Post] against the exporter's handler, for a request that reaches
    it and whose body decodes to the record that was marshalled (names in
    valid UTF-8). *)
Definition postToExporter (i : containerStartupInfo) (st : State)
  : State * PostResult :=
  let '(st1, code) := receiveStartupInfo (pushOf i) st in
  (st1, PostStatus code).

(** ** More vocabulary *)

(** The container statuses of the live pods, each with its pod, in the
    order of the loops of [doUpdate]. *)
Definition statusesOf (pods : list (option Pod)) : list (Pod * ContainerStatus) :=
  p ← livePods pods; pair p <$> Status_ContainerStatuses p.

(** The first status, in that order, whose container ID lacks the prefix. *)
Definition firstViolation (pods : list (option Pod)) : option (Pod * ContainerStatus) :=
  List.find (λ pc, negb (strings.HasPrefix (ContainerID pc.2) containerNamePrefix))
            (statusesOf pods).

(** The two tests of the loop of [shouldUpdate] on one pod. *)
Definition podUnsettled (p : Pod) : bool :=
  (length (Status_ContainerStatuses p) =? 0)%nat
  || existsb containerNotRunning (Status_ContainerStatuses p).

(** What holds of the package state whenever the program has run from its
    initial state. *)
Record Consistent (st : State) : Prop := {
  stored_under_identity :
    ∀ m info, allInfo st !! m = Some info → identity info = m;
  tracked_nonempty :
    ∀ m podNames, updatedDeploy st !! m = Some podNames → podNames ≠ ∅;
  tracked_has_average :
    ∀ m, is_Some (updatedDeploy st !! m) →
         is_Some (deployPodsAvgStartupLatency st !! (name m, namespace m));
  scale_has_average :
    ∀ l, is_Some (deployScaleLatency st !! l) →
         is_Some (deployPodsAvgStartupLatency st !! l)
}.

(** The keys of the deployments that a listing visits. *)
Definition visitedKeys (l : Listing) : list meta :=
  match l with
  | inl _ => []
  | inr ds => omap (λ dp, keyOf <$> dp.1) ds
  end.

(** The record log of a responder that answers [f i] to the post of [i]. *)
Definition logged (f : containerStartupInfo → PostResult)
    (i : containerStartupInfo) (log : list containerStartupInfo)
  : list containerStartupInfo * PostResult :=
  ((log ++ [i])%list, f i).

(** A string made of bytes of [cutset] only. *)
Definition onlyFrom (cutset s : string) : bool :=
  forallb (λ a, strings.inCutset a cutset) (list_ascii_of_string s).

(** The error that [push] returns for a post that went wrong. *)
Definition pushErrorOf (r : PostResult) : PushError :=
  match r with
  | PostError => FailedToPost
  | PostStatus code => ReceivedStatus code
  end.

Definition accepts (f : containerStartupInfo → PostResult)
    (i : containerStartupInfo) : bool :=
  match f i with
  | PostStatus code => code =? StatusOK
  | PostError => false
  end.

(** * Properties *)

(** ** The record store *)

Section RecordStore.

Implicit Types (info : containerStartupInfo) (st : State) (m : meta).

Lemma receiveStartupInfo_push info st :
  receiveStartupInfo (pushOf info) st =
    (match allInfo st !! identity info with
     | Some _ => st
     | None =>
         {| allInfo := <[identity info := info]> (allInfo st);
            updatedDeploy := updatedDeploy st;
            deployPodsAvgStartupLatency := deployPodsAvgStartupLatency st;
            deployScaleLatency := deployScaleLatency st |}
     end, StatusOK).
Proof.
  unfold receiveStartupInfo, pushOf, identity; simpl.
  by destruct (allInfo st !! _).
Qed.

Lemma receiveStartupInfo_duplicate info st :
  is_Some (allInfo st !! identity info) →
  receiveStartupInfo (pushOf info) st = (st, StatusOK).
Proof.
  intros [r Hr]. by rewrite receiveStartupInfo_push, Hr.
Qed.

Lemma firstPushed_cons m info infos :
  firstPushed m (info :: infos) =
    if decide (identity info = m) then Some info else firstPushed m infos.
Proof.
  unfold firstPushed; simpl. by case_bool_decide; case_decide.
Qed.

Lemma receiveAll_cons r rs st :
  receiveAll (r :: rs) st =
    ((receiveAll rs (receiveStartupInfo r st).1).1,
     (receiveStartupInfo r st).2 :: (receiveAll rs (receiveStartupInfo r st).1).2).
Proof.
  simpl. destruct (receiveStartupInfo r st) as [st1 code]; simpl.
  by destruct (receiveAll rs st1).
Qed.

Lemma receiveAll_lookup infos : ∀ st m,
  allInfo (receiveAll (pushOf <$> infos) st).1 !! m =
    match allInfo st !! m with
    | Some r => Some r
    | None => firstPushed m infos
    end.
Proof.
  induction infos as [|info infos IH]; intros st m.
  { simpl. by destruct (allInfo st !! m). }
  rewrite firstPushed_cons, fmap_cons, receiveAll_cons, receiveStartupInfo_push.
  cbn [fst snd]. rewrite IH.
  destruct (allInfo st !! identity info) as [r0|] eqn:Hid.
  - destruct (allInfo st !! m) eqn:Hm; [done|].
    case_decide; [congruence|done].
  - cbn [allInfo]. case_decide as Hd.
    + subst m. by rewrite lookup_insert_eq, Hid.
    + rewrite lookup_insert_ne by done. by destruct (allInfo st !! m).
Qed.

Lemma receiveAll_codes infos : ∀ st,
  (receiveAll (pushOf <$> infos) st).2 = replicate (length infos) StatusOK.
Proof.
  induction infos as [|info infos IH]; intros st; [done|].
  rewrite fmap_cons, receiveAll_cons, receiveStartupInfo_push.
  cbn [fst snd length replicate]. by rewrite IH.
Qed.

End RecordStore.

(** ** The gate *)

Section Gate.

Implicit Types (p : Pod) (pods : list (option Pod)) (c : ContainerStatus).
Implicit Types (ud : gmap meta (gset string)) (m : meta) (s : string).

Local Arguments Ascii.eqb : simpl never.
Local Arguments String.eqb : simpl never.

Lemma inCutset_space a : strings.inCutset a " " = Ascii.eqb " " a.
Proof.
  unfold strings.inCutset; simpl. rewrite orb_false_r. apply Ascii.eqb_sym.
Qed.

Lemma TrimLeft_space_nil s :
  strings.TrimLeft s " " = "" ↔ spacesOnly s = true.
Proof.
  unfold spacesOnly. induction s as [|a s IH]; simpl; [by split|].
  rewrite inCutset_space. destruct (Ascii.eqb " " a); simpl; [exact IH|].
  split; discriminate.
Qed.

Lemma TrimLeft_head s a t :
  strings.TrimLeft s " " = String a t → strings.inCutset a " " = false.
Proof.
  induction s as [|b s IH]; simpl; [discriminate|].
  destruct (strings.inCutset b " ") eqn:Hb; [done|].
  intros [= -> _]. done.
Qed.

Lemma TrimRight_nil a t cutset :
  strings.TrimRight (String a t) cutset = "" → strings.inCutset a cutset = true.
Proof.
  simpl. destruct (strings.TrimRight t cutset); [|discriminate].
  by destruct (strings.inCutset a cutset).
Qed.

Lemma Trim_space_nil s : strings.Trim s " " = "" ↔ spacesOnly s = true.
Proof.
  rewrite <- TrimLeft_space_nil. unfold strings.Trim. split.
  - destruct (strings.TrimLeft s " ") as [|a t] eqn:Hl; [done|].
    intros Hr%TrimRight_nil. apply TrimLeft_head in Hl. congruence.
  - intros ->. done.
Qed.

Lemma containerNotRunning_spec c :
  containerNotRunning c = spacesOnly (ContainerID c).
Proof.
  unfold containerNotRunning.
  destruct (spacesOnly (ContainerID c)) eqn:Hs.
  - apply Trim_space_nil in Hs. by rewrite Hs.
  - apply String.eqb_neq. rewrite Trim_space_nil. congruence.
Qed.

(** The two tests that the loop of [shouldUpdate] makes on a pod. *)
Lemma pod_checks_spec p :
  (length (Status_ContainerStatuses p) =? 0)%nat = false
  ∧ existsb containerNotRunning (Status_ContainerStatuses p) = false
  ↔ ¬ unsettledBy spacesOnly p.
Proof.
  unfold unsettledBy. rewrite Nat.eqb_neq. split.
  - intros [Hlen Hex] [Hnil|(c & Hc & Hb)].
    + by rewrite Hnil in Hlen.
    + assert (existsb containerNotRunning (Status_ContainerStatuses p) = true)
        as Ht; [|congruence].
      apply existsb_exists. exists c. split; [by apply list_elem_of_In|].
      by rewrite containerNotRunning_spec.
  - intros Hn. split.
    + intros Hlen. apply Hn. left. by apply length_zero_iff_nil.
    + destruct (existsb _ _) eqn:Hex; [|done].
      apply existsb_exists in Hex as (c & Hc & Hb).
      exfalso. apply Hn. right. exists c. split; [by apply list_elem_of_In|].
      by rewrite <- containerNotRunning_spec.
Qed.

Lemma shouldUpdate_pods_settled pods : ∀ names,
  settledBy spacesOnly pods →
  shouldUpdate_pods pods names = Some (foldl addPodName names pods).
Proof.
  induction pods as [|[p|] pods IH]; intros names Hs; simpl; [done| |].
  - assert (¬ unsettledBy spacesOnly p) as [-> ->]%pod_checks_spec.
    { apply Hs. left. }
    apply IH. intros q Hq. apply Hs. by right.
  - apply IH. intros q Hq. apply Hs. by right.
Qed.

Lemma shouldUpdate_pods_unsettled pods : ∀ names p,
  Some p ∈ pods → unsettledBy spacesOnly p →
  shouldUpdate_pods pods names = None.
Proof.
  induction pods as [|[q|] pods IH]; intros names p Hin Hu; simpl.
  - by apply elem_of_nil in Hin.
  - destruct (length (Status_ContainerStatuses q) =? 0)%nat eqn:Hlen; [done|].
    destruct (existsb containerNotRunning _) eqn:Hex; [done|].
    apply elem_of_cons in Hin as [[= ->]|Hin].
    + exfalso. by apply (proj1 (pod_checks_spec q)).
    + by apply (IH _ p).
  - apply elem_of_cons in Hin as [?|Hin]; [done|]. by apply (IH _ p).
Qed.

Lemma elem_of_foldl_addPodName pods : ∀ names k,
  k ∈ foldl addPodName names pods
  ↔ k ∈ names ∨ ∃ p, Some p ∈ pods ∧ pod_Name p = k.
Proof.
  induction pods as [|[q|] pods IH]; intros names k; simpl.
  - split; [by left|]. intros [?|(p & Hp & ?)]; [done|]. by apply elem_of_nil in Hp.
  - rewrite IH. rewrite elem_of_union, elem_of_singleton. split.
    + intros [[->|?]|(p & Hp & Hk)]; [right|by left|right].
      * exists q. split; [left|done].
      * exists p. split; [by right|done].
    + intros [?|(p & Hp & Hk)]; [left; by right|].
      apply elem_of_cons in Hp as [[= ->]|Hp]; [left; left; done|].
      right. by exists p.
  - rewrite IH. split.
    + intros [?|(p & Hp & Hk)]; [by left|right]. exists p. split; [by right|done].
    + intros [?|(p & Hp & Hk)]; [by left|right].
      apply elem_of_cons in Hp as [?|Hp]; [done|]. by exists p.
Qed.

(** [getPodNames] is the set of the names of the live pods. *)
Lemma elem_of_getPodNames pods k :
  k ∈ getPodNames pods ↔ ∃ p, Some p ∈ pods ∧ pod_Name p = k.
Proof.
  unfold getPodNames. rewrite elem_of_foldl_addPodName. split; [|by right].
  intros [H|H]; [|done]. by apply not_elem_of_empty in H.
Qed.

(** [equal] decides set equality. *)
Lemma equal_true_iff (a b : gset string) : equal a b = true ↔ a = b.
Proof.
  unfold equal. split.
  - destruct (size a =? size b)%nat eqn:Hsz; simpl; [|discriminate].
    apply Nat.eqb_eq in Hsz. intros Hall.
    apply set_subseteq_size_eq; [|lia].
    intros k Hk. rewrite forallb_forall in Hall.
    specialize (Hall k). rewrite bool_decide_eq_true in Hall.
    apply Hall, list_elem_of_In, elem_of_elements, Hk.
  - intros ->. rewrite Nat.eqb_refl. simpl.
    apply forallb_forall. intros k Hk%list_elem_of_In%elem_of_elements.
    by apply bool_decide_eq_true.
Qed.

Lemma shouldUpdate_settled_eq ud m pods :
  pods ≠ [] → settledBy spacesOnly pods →
  shouldUpdate ud m pods =
    match ud !! m with
    | None => true
    | Some lastPodNames => negb (equal lastPodNames (getPodNames pods))
    end.
Proof.
  intros Hne Hs. unfold shouldUpdate.
  destruct pods as [|p0 pods]; [done|].
  cbn [length Nat.eqb]. by rewrite shouldUpdate_pods_settled.
Qed.

(** C8. With no live pod the gate answers false, whatever is tracked, and
    the loop body then leaves the whole state as it is: no scoring run. *)
Theorem shouldUpdate_no_pods :
  ∀ (st : State) (d : option Deployment) ud m,
    shouldUpdate ud m [] = false ∧ visitDeployment st d [] = st.
Proof.
  intros st d ud m. split; [done|].
  unfold visitDeployment. destruct d as [d|]; [|done].
  by destruct (Spec_Selector d).
Qed.

(** C7, as stated, fails: a pod whose only container ID is a horizontal
    tab is white space only, yet the gate lets it through. *)
Lemma shouldUpdate_whitespace_counterexample :
  ¬ (∀ ud m pods p,
       pods ≠ [] → Some p ∈ pods → unsettledBy whitespaceOnly p →
       shouldUpdate ud m pods = false).
Proof.
  intros H.
  specialize (H ∅ (keyOf sampleDeploy) [Some (samplePod "web-1" 1 [tab])]
                (samplePod "web-1" 1 [tab])).
  assert (shouldUpdate ∅ (keyOf sampleDeploy)
            [Some (samplePod "web-1" 1 [tab])] = true) as Ht by reflexivity.
  rewrite H in Ht; [discriminate|done|left|].
  right. eexists. split; [left|reflexivity].
Qed.

(** C7, amended. If some live pod reports no container status, or a
    container status whose ID is empty or made of space characters only,
    the gate answers false, whatever the tracked pod sets are. *)
Theorem shouldUpdate_unsettled :
  ∀ ud m pods p,
    Some p ∈ pods → unsettledBy spacesOnly p →
    shouldUpdate ud m pods = false.
Proof.
  intros ud m pods p Hin Hu. unfold shouldUpdate.
  destruct (length pods =? 0)%nat; [done|].
  by rewrite (shouldUpdate_pods_unsettled pods ∅ p).
Qed.

Lemma shouldUpdate_unsettled_witness :
  shouldUpdate {[keyOf sampleDeploy := {[ "web-0" ]}]} (keyOf sampleDeploy)
    [Some (samplePod "web-0" 1 ["containerd://a"]);
     Some (samplePod "web-1" 1 ["  "])] = false.
Proof.
  apply (shouldUpdate_unsettled _ _ _ (samplePod "web-1" 1 ["  "])).
  - right. left.
  - right. eexists. split; [left|reflexivity].
Defined.

(** C6, as stated, fails on the empty pod list: all of its pods pass the
    check (with white space or with spaces as the notion of a blank ID) and
    nothing is tracked, yet the gate answers false. *)
Lemma shouldUpdate_settled_counterexample :
  ¬ (∀ ud m pods,
       settledBy whitespaceOnly pods → ud !! m = None →
       shouldUpdate ud m pods = true)
  ∧ ¬ (∀ ud m pods,
         settledBy spacesOnly pods → ud !! m = None →
         shouldUpdate ud m pods = true).
Proof.
  assert (shouldUpdate ∅ (keyOf sampleDeploy) [] = false) as Hf by reflexivity.
  split; intros H; specialize (H ∅ (keyOf sampleDeploy) []);
    (rewrite H in Hf; [discriminate| |done]);
    intros p Hp; by apply elem_of_nil in Hp.
Qed.

(** C6, amended. For a non-empty pod list whose live pods all pass the
    check: with no tracked pod set the gate answers true; with a tracked
    pod set it answers true exactly when the set of live pod names is not
    that set, and [equal] is set equality (same size and same members); so
    an unchanged pod set gives false and a pod name that is in one of the
    sets only gives true. *)
Theorem shouldUpdate_settled :
  ∀ ud m pods,
    pods ≠ [] → settledBy spacesOnly pods →
    (ud !! m = None → shouldUpdate ud m pods = true)
    ∧ (∀ last, ud !! m = Some last →
         (shouldUpdate ud m pods = true ↔ getPodNames pods ≠ last)
         ∧ (equal last (getPodNames pods) = true
            ↔ size last = size (getPodNames pods)
              ∧ ∀ k, k ∈ last ↔ k ∈ getPodNames pods))
    ∧ (ud !! m = Some (getPodNames pods) → shouldUpdate ud m pods = false)
    ∧ (∀ last k, ud !! m = Some last →
         (k ∈ getPodNames pods ∧ k ∉ last) ∨ (k ∈ last ∧ k ∉ getPodNames pods) →
         shouldUpdate ud m pods = true).
Proof.
  intros ud m pods Hne Hs.
  rewrite (shouldUpdate_settled_eq ud m pods Hne Hs).
  split; [by intros ->|]. split; [|split].
  - intros last ->. split.
    + rewrite negb_true_iff, <- not_true_iff_false, equal_true_iff.
      split; intros H1 H2; by apply H1.
    + rewrite equal_true_iff. split; [by intros ->|].
      intros [_ Hk]. by apply set_eq.
  - intros ->. apply negb_false_iff, equal_true_iff. done.
  - intros last k -> Hk.
    rewrite negb_true_iff, <- not_true_iff_false, equal_true_iff.
    intros ->. tauto.
Qed.

Lemma shouldUpdate_settled_witness :
  shouldUpdate {[keyOf sampleDeploy := {[ "web-0" ]}]} (keyOf sampleDeploy)
    [Some (samplePod "web-0" 1 ["containerd://a"]);
     Some (samplePod "web-1" 1 ["containerd://b"])] = true.
Proof.
  assert ([Some (samplePod "web-0" 1 ["containerd://a"]);
           Some (samplePod "web-1" 1 ["containerd://b"])] ≠ []) as Hne by done.
  assert (settledBy spacesOnly
            [Some (samplePod "web-0" 1 ["containerd://a"]);
             Some (samplePod "web-1" 1 ["containerd://b"])]) as Hs.
  { intros p Hp. apply pod_checks_spec.
    apply elem_of_cons in Hp as [[= ->]|Hp]; [done|].
    apply elem_of_cons in Hp as [[= ->]|Hp]; [done|].
    by apply elem_of_nil in Hp. }
  destruct (shouldUpdate_settled {[keyOf sampleDeploy := {[ "web-0" ]}]}
              (keyOf sampleDeploy) _ Hne Hs) as (_ & _ & _ & Hchurn).
  apply (Hchurn {[ "web-0" ]} "web-1"); [reflexivity|].
  left. split.
  - apply elem_of_getPodNames. eexists. split; [right; left|reflexivity].
  - rewrite elem_of_singleton. discriminate.
Defined.

End Gate.

(** ** The aggregator *)

Section Aggregator.

Implicit Types (p : Pod) (pods : list (option Pod)) (c : ContainerStatus).
Implicit Types (allInfo : gmap meta containerStartupInfo).
Implicit Types (ud : gmap meta (gset string)) (last : gset string) (a : Acc).

Lemma summary_nil allInfo last a : summary allInfo last a 0 [] = a.
Proof.
  destruct a. unfold summary; simpl. f_equal; [lia|apply app_nil_r].
Qed.

Lemma summary_app allInfo last a n1 n2 L1 L2 :
  summary allInfo last (summary allInfo last a n1 L1) n2 L2 =
  summary allInfo last a (n1 + n2) (L1 ++ L2).
Proof.
  unfold summary; simpl.
  rewrite omap_app, !filter_app, !fmap_app, !foldl_app, <- app_assoc.
  f_equal. lia.
Qed.

Lemma addTarget_summary allInfo last a n :
  addTarget n a = summary allInfo last a n [].
Proof.
  unfold addTarget, summary; simpl. by rewrite app_nil_r.
Qed.

Lemma lookupInfo_summary allInfo last a p n :
  lookupInfo allInfo (bool_decide (pod_Name p ∈ last)) n a =
  summary allInfo last a 0 [(p, n)].
Proof.
  unfold lookupInfo, summary, storeGet; simpl.
  destruct (allInfo !! _) as [info|] eqn:Hget; simpl;
    rewrite !filter_cons, !filter_nil; simpl; rewrite Hget.
  - destruct (decide (Some info = None)) as [?|_]; [discriminate|].
    simpl. rewrite app_nil_r. unfold latency.
    destruct (decide (pod_Name p ∉ last)) as [Hnew|Hold]; case_bool_decide;
      try done; simpl; f_equal; try lia.
    + destruct (Z.ltb_spec (Start info) (startTimestamp a)); lia.
    + destruct (Z.gtb_spec (End_ info) (endTimestamp a)); lia.
  - rewrite decide_True by done. simpl. f_equal. lia.
Qed.

(** The inner loop: it ends in an error exactly when some container ID
    lacks the prefix. *)
Lemma doUpdate_statuses_spec allInfo last p cs : ∀ a,
  (Forall (λ c, strings.HasPrefix (ContainerID c) containerNamePrefix = true) cs
   ∧ doUpdate_statuses allInfo (bool_decide (pod_Name p ∈ last)) p cs a =
       inr (summary allInfo last a 0 ((λ c, (p, recordName c)) <$> cs)))
  ∨ (Exists (λ c, strings.HasPrefix (ContainerID c) containerNamePrefix = false) cs
     ∧ ∃ err, doUpdate_statuses allInfo (bool_decide (pod_Name p ∈ last)) p cs a =
                inl err).
Proof.
  induction cs as [|c cs IH]; intros a; simpl.
  - left. split; [constructor|]. by rewrite summary_nil.
  - destruct (strings.HasPrefix (ContainerID c) containerNamePrefix) eqn:Hc.
    + rewrite lookupInfo_summary.
      destruct (IH (summary allInfo last a 0 [(p, strings.TrimPrefix (ContainerID c) containerNamePrefix)]))
        as [[Hall ->]|[Hex [err ->]]].
      * left. split; [by constructor|]. by rewrite summary_app.
      * right. split; [by apply Exists_cons_tl|by exists err].
    + right. split; [by apply Exists_cons_hd|by eexists].
Qed.

Lemma targetCount_cons_Some p pods :
  targetCount (Some p :: pods) =
  Z.of_nat (length (Spec_Containers p)) + targetCount pods.
Proof. done. Qed.

Lemma lookups_cons_Some p pods :
  lookups (Some p :: pods) =
  (((λ c, (p, recordName c)) <$> Status_ContainerStatuses p) ++ lookups pods)%list.
Proof. done. Qed.

(** The outer loop. *)
Lemma doUpdate_pods_spec allInfo last pods : ∀ a,
  (prefixOK pods
   ∧ doUpdate_pods allInfo last pods a =
       inr (summary allInfo last a (targetCount pods) (lookups pods)))
  ∨ ((∃ p c, Some p ∈ pods ∧ c ∈ Status_ContainerStatuses p
             ∧ strings.HasPrefix (ContainerID c) containerNamePrefix = false)
     ∧ ∃ err, doUpdate_pods allInfo last pods a = inl err).
Proof.
  induction pods as [|[p|] pods IH]; intros a.
  - left. split; [|by rewrite summary_nil].
    intros p c Hp. by apply elem_of_nil in Hp.
  - cbn [doUpdate_pods].
    rewrite (addTarget_summary allInfo last).
    destruct (doUpdate_statuses_spec allInfo last p (Status_ContainerStatuses p)
                (summary allInfo last a (Z.of_nat (length (Spec_Containers p))) []))
      as [[Hall ->]|[Hex [err ->]]].
    + rewrite summary_app, app_nil_l, Z.add_0_r.
      destruct (IH (summary allInfo last a (Z.of_nat (length (Spec_Containers p)))
                      ((λ c, (p, recordName c)) <$> Status_ContainerStatuses p)))
        as [[Hok ->]|[(q & c & Hq & Hc & Hbad) [err ->]]].
      * left. split.
        -- intros q c Hq Hc. apply elem_of_cons in Hq as [[= ->]|Hq].
           ++ rewrite Forall_forall in Hall. by apply Hall.
           ++ by apply (Hok q).
        -- by rewrite summary_app, targetCount_cons_Some, lookups_cons_Some.
      * right. split; [|by exists err].
        exists q, c. split; [by right|done].
    + right. split; [|by exists err].
      apply Exists_exists in Hex as (c & Hc & Hbad).
      exists p, c. split; [left|done].
  - cbn [doUpdate_pods].
    destruct (IH a) as [[Hok ->]|[(q & c & Hq & Hc & Hbad) [err ->]]].
    + left. split; [|done].
      intros q c Hq Hc. apply elem_of_cons in Hq as [?|Hq]; [done|].
      by apply (Hok q).
    + right. split; [|by exists err].
      exists q, c. split; [by right|done].
Qed.

Lemma elem_of_livePods p pods : p ∈ livePods pods ↔ Some p ∈ pods.
Proof.
  unfold livePods. rewrite list_elem_of_omap. split.
  - intros (o & Ho & Hid). simpl in Hid. by subst o.
  - intros Hp. by exists (Some p).
Qed.

Lemma prefixOKb_spec pods : prefixOKb pods = true ↔ prefixOK pods.
Proof.
  unfold prefixOKb, prefixOK. rewrite forallb_forall. split.
  - intros H p c Hp Hc.
    apply elem_of_livePods, list_elem_of_In, H in Hp.
    rewrite forallb_forall in Hp. by apply Hp, list_elem_of_In.
  - intros H p Hp%list_elem_of_In%elem_of_livePods.
    apply forallb_forall. intros c Hc%list_elem_of_In. by apply (H p).
Qed.

Lemma doUpdate_prefixOK allInfo ud deploy pods :
  prefixOK pods →
  doUpdate allInfo ud deploy pods =
    let new := receivedNew allInfo (lastPodNamesOf ud deploy) pods in
    if receivedCount allInfo pods =? 0 then ((false, None), [])
    else if negb (receivedCount allInfo pods =? targetCount pods)
    then ((false, None), [])
    else
      ((true, None),
       SetAvgStartupLatency (labelsOf deploy)
         (sumLatency (snd <$> received allInfo pods)
          / float64_of_int (receivedCount allInfo pods))%float ::
       (if maxEnd new >? minStart new
        then [SetScaleLatency (labelsOf deploy)
                (float64_of_int (wrap64 (maxEnd new - minStart new)))]
        else [])).
Proof.
  intros Hok. unfold doUpdate.
  change (match ud !! _ with Some l => l | None => ∅ end)
    with (lastPodNamesOf ud deploy).
  destruct (doUpdate_pods_spec allInfo (lastPodNamesOf ud deploy) pods initAcc)
    as [[_ ->]|[(p & c & Hp & Hc & Hbad) _]].
  - assert (receivedLen (summary allInfo (lastPodNamesOf ud deploy) initAcc
                           (targetCount pods) (lookups pods))
            = receivedCount allInfo pods) as ->.
    { unfold receivedLen, receivedCount, unreceivedCount, summary; simpl.
      by rewrite length_fmap. }
    done.
  - rewrite (Hok p c Hp Hc) in Hbad. discriminate.
Qed.

Lemma doUpdate_bad_prefix allInfo ud deploy pods p c :
  Some p ∈ pods → c ∈ Status_ContainerStatuses p →
  strings.HasPrefix (ContainerID c) containerNamePrefix = false →
  ∃ err, doUpdate allInfo ud deploy pods = ((false, Some err), []).
Proof.
  intros Hp Hc Hbad. unfold doUpdate.
  match goal with |- context [doUpdate_pods _ ?l _ _] =>
    destruct (doUpdate_pods_spec allInfo l pods initAcc)
      as [[Hok _]|[_ [err ->]]]
  end.
  - rewrite (Hok p c Hp Hc) in Hbad. discriminate.
  - by exists err.
Qed.

(** A run that reports an update found every prefix in place. *)
Lemma doUpdate_updated_prefixOK allInfo ud deploy pods :
  (doUpdate allInfo ud deploy pods).1.1 = true → prefixOK pods.
Proof.
  intros Hup.
  destruct (doUpdate_pods_spec allInfo ∅ pods initAcc)
    as [[Hok _]|[(p & c & Hp & Hc & Hbad) _]]; [done|].
  destruct (doUpdate_bad_prefix allInfo ud deploy pods p c Hp Hc Hbad)
    as [err Herr].
  rewrite Herr in Hup. discriminate.
Qed.

Lemma doUpdate_writes_prefixOK allInfo ud deploy pods :
  (doUpdate allInfo ud deploy pods).2 ≠ [] → prefixOK pods.
Proof.
  intros Hw.
  destruct (doUpdate_pods_spec allInfo ∅ pods initAcc)
    as [[Hok _]|[(p & c & Hp & Hc & Hbad) _]]; [done|].
  destruct (doUpdate_bad_prefix allInfo ud deploy pods p c Hp Hc Hbad)
    as [err Herr].
  by rewrite Herr in Hw.
Qed.

(** The window bounds are bounds, and are attained. *)
Lemma foldl_min_spec (l : list Z) : ∀ s,
  foldl Z.min s l ≤ s
  ∧ (∀ x, x ∈ l → foldl Z.min s l ≤ x)
  ∧ (foldl Z.min s l = s ∨ foldl Z.min s l ∈ l).
Proof.
  induction l as [|y l IH]; intros s; simpl.
  { split; [lia|]. split; [|by left]. intros x Hx. by apply elem_of_nil in Hx. }
  destruct (IH (Z.min s y)) as (Hle & Hall & Hin).
  split; [lia|]. split.
  - intros x [->|Hx]%elem_of_cons; [lia|by apply Hall].
  - destruct Hin as [Heq|Hin]; [|right; by right].
    rewrite Heq.
    destruct (Z.min_spec s y) as [[_ ->]|[_ ->]]; [by left|right; left].
Qed.

Lemma foldl_max_spec (l : list Z) : ∀ s,
  s ≤ foldl Z.max s l
  ∧ (∀ x, x ∈ l → x ≤ foldl Z.max s l)
  ∧ (foldl Z.max s l = s ∨ foldl Z.max s l ∈ l).
Proof.
  induction l as [|y l IH]; intros s; simpl.
  { split; [lia|]. split; [|by left]. intros x Hx. by apply elem_of_nil in Hx. }
  destruct (IH (Z.max s y)) as (Hle & Hall & Hin).
  split; [lia|]. split.
  - intros x [->|Hx]%elem_of_cons; [lia|by apply Hall].
  - destruct Hin as [Heq|Hin]; [|right; by right].
    rewrite Heq.
    destruct (Z.max_spec s y) as [[_ ->]|[_ ->]]; [right; left|by left].
Qed.

Lemma wrap64_inInt64 z : inInt64 z → wrap64 z = z.
Proof.
  unfold inInt64, wrap64, MinInt64, MaxInt64. intros Hz.
  rewrite Z.mod_small by lia. lia.
Qed.

(** The records that make the window: found for a status of a live pod
    whose name is not in [last]. *)
Lemma elem_of_receivedNew allInfo last pods info :
  info ∈ receivedNew allInfo last pods
  ↔ ∃ p c, Some p ∈ pods ∧ (pod_Name p ∉ last)
           ∧ c ∈ Status_ContainerStatuses p
           ∧ storeGet allInfo (recordName c) = Some info.
Proof.
  unfold receivedNew, received, lookups.
  rewrite list_elem_of_fmap. split.
  - intros ([p i] & -> & [Hnew Hin]%list_elem_of_filter). simpl in *.
    apply list_elem_of_omap in Hin as ([q n] & Hl & Hget). simpl in Hget.
    destruct (storeGet allInfo n) as [i'|] eqn:Hn; simplify_eq/=.
    apply list_elem_of_bind in Hl as (p' & Hc & Hp').
    apply list_elem_of_fmap in Hc as (c & [= -> ->] & Hc).
    exists p', c. by rewrite <- elem_of_livePods.
  - intros (p & c & Hp & Hnew & Hc & Hget).
    exists (p, info). split; [done|].
    apply list_elem_of_filter. split; [done|].
    apply list_elem_of_omap. exists (p, recordName c). split.
    + apply list_elem_of_bind. exists p. split; [|by apply elem_of_livePods].
      apply list_elem_of_fmap. by exists c.
    + simpl. by rewrite Hget.
Qed.

Lemma receivedNew_all_old allInfo last pods :
  (∀ p, Some p ∈ pods → pod_Name p ∈ last) →
  receivedNew allInfo last pods = [].
Proof.
  intros Hold. apply elem_of_nil_inv. intros info.
  rewrite elem_of_receivedNew. intros (p & c & Hp & Hnew & _).
  by apply Hnew, Hold.
Qed.

(** The records that are added up: found for a status of a live pod. *)
Lemma elem_of_received_infos allInfo pods info :
  info ∈ (received allInfo pods).*2
  ↔ ∃ p c, Some p ∈ pods ∧ c ∈ Status_ContainerStatuses p
           ∧ storeGet allInfo (recordName c) = Some info.
Proof.
  unfold received, lookups. rewrite list_elem_of_fmap. split.
  - intros ([p i] & -> & Hin). simpl in *.
    apply list_elem_of_omap in Hin as ([q n] & Hl & Hget). simpl in Hget.
    destruct (storeGet allInfo n) as [i'|] eqn:Hn; simplify_eq/=.
    apply list_elem_of_bind in Hl as (p' & Hc & Hp').
    apply list_elem_of_fmap in Hc as (c & [= -> ->] & Hc).
    exists p', c. by rewrite <- elem_of_livePods.
  - intros (p & c & Hp & Hc & Hget).
    exists (p, info). split; [done|].
    apply list_elem_of_omap. exists (p, recordName c). split.
    + apply list_elem_of_bind. exists p. split; [|by apply elem_of_livePods].
      apply list_elem_of_fmap. by exists c.
    + simpl. by rewrite Hget.
Qed.

(** What a run that returns (true, nil) has done. *)
Lemma doUpdate_published allInfo ud deploy pods :
  (doUpdate allInfo ud deploy pods).1 = (true, None) →
  prefixOK pods
  ∧ receivedCount allInfo pods = targetCount pods
  ∧ receivedCount allInfo pods ≠ 0
  ∧ (doUpdate allInfo ud deploy pods).2 =
      let new := receivedNew allInfo (lastPodNamesOf ud deploy) pods in
      SetAvgStartupLatency (labelsOf deploy)
        (sumLatency (snd <$> received allInfo pods)
         / float64_of_int (receivedCount allInfo pods))%float ::
      (if maxEnd new >? minStart new
       then [SetScaleLatency (labelsOf deploy)
               (float64_of_int (wrap64 (maxEnd new - minStart new)))]
       else []).
Proof.
  intros Hpub.
  assert (prefixOK pods) as Hok.
  { apply (doUpdate_updated_prefixOK allInfo ud deploy). by rewrite Hpub. }
  split; [done|].
  rewrite doUpdate_prefixOK in Hpub |- * by done. cbv zeta in Hpub |- *.
  destruct (Z.eqb_spec (receivedCount allInfo pods) 0); [done|].
  destruct (Z.eqb_spec (receivedCount allInfo pods) (targetCount pods)); done.
Qed.

End Aggregator.

(** ** The loop body *)

Section Loop.

Implicit Types (st : State) (d : Deployment) (pods : list (option Pod)).

Lemma foldl_applyWrite_updatedDeploy ws : ∀ st,
  updatedDeploy (foldl applyWrite st ws) = updatedDeploy st
  ∧ allInfo (foldl applyWrite st ws) = allInfo st.
Proof.
  induction ws as [|w ws IH]; intros st; simpl; [done|].
  destruct (IH (applyWrite st w)) as [-> ->]. by destruct w.
Qed.

(** A run that does not report an update and sets no gauge leaves the
    state as it is. *)
Lemma visitDeployment_no_update st d pods e :
  doUpdate (allInfo st) (updatedDeploy st) d pods = ((false, e), []) →
  visitDeployment st (Some d) pods = st.
Proof.
  intros Hrun. unfold visitDeployment.
  destruct (Spec_Selector d); [|done].
  destruct (shouldUpdate _ _ pods); simpl; [|done].
  rewrite Hrun. simpl. by destruct e.
Qed.

Lemma visitDeployment_gate_closed st d pods :
  shouldUpdate (updatedDeploy st) (keyOf d) pods = false →
  visitDeployment st (Some d) pods = st.
Proof.
  intros Hgate. unfold visitDeployment.
  destruct (Spec_Selector d); [|done].
  unfold keyOf in Hgate. by rewrite Hgate.
Qed.

(** What one visit does to the tracked pod sets. *)
Lemma visitDeployment_updatedDeploy st d pods :
  updatedDeploy (visitDeployment st (Some d) pods) =
    if bool_decide (Spec_Selector d ≠ None)
       && shouldUpdate (updatedDeploy st) (keyOf d) pods
       && bool_decide ((doUpdate (allInfo st) (updatedDeploy st) d pods).1
                       = (true, None))
    then <[keyOf d := getPodNames pods]> (updatedDeploy st)
    else updatedDeploy st.
Proof.
  unfold visitDeployment, keyOf.
  destruct (Spec_Selector d) as [sel|]; [|done].
  rewrite bool_decide_eq_true_2 by done.
  destruct (shouldUpdate _ _ pods); simpl; [|done].
  destruct (doUpdate (allInfo st) (updatedDeploy st) d pods)
    as [[updated err] ws]; simpl.
  destruct (foldl_applyWrite_updatedDeploy ws st) as [Hud _].
  destruct err as [e|]; [by rewrite bool_decide_eq_false_2|].
  destruct updated.
  - rewrite bool_decide_eq_true_2 by done. simpl. by rewrite Hud.
  - by rewrite bool_decide_eq_false_2.
Qed.

Lemma visitDeployment_dom st (d : option Deployment) pods :
  dom (updatedDeploy st) ⊆ dom (updatedDeploy (visitDeployment st d pods)).
Proof.
  destruct d as [d|]; [|done].
  rewrite visitDeployment_updatedDeploy.
  destruct (_ && _); [|done].
  rewrite dom_insert_L. set_solver.
Qed.

Lemma cycle_dom l : ∀ st,
  dom (updatedDeploy st) ⊆ dom (updatedDeploy (cycle st l)).
Proof.
  destruct l as [err|ds]; intros st; simpl; [done|].
  revert st. induction ds as [|[d pods] ds IH]; intros st; simpl; [done|].
  etrans; [apply (visitDeployment_dom st d pods)|apply IH].
Qed.

Lemma receiveStartupInfo_updatedDeploy r st :
  updatedDeploy (receiveStartupInfo r st).1 = updatedDeploy st.
Proof.
  unfold receiveStartupInfo.
  destruct (negb _); [done|].
  destruct (Decoded r) as [info|]; [|done].
  by destruct (allInfo st !! _).
Qed.

Lemma run_dom es : ∀ st,
  dom (updatedDeploy st) ⊆ dom (updatedDeploy (run st es)).
Proof.
  unfold run. induction es as [|e es IH]; intros st; simpl; [done|].
  etrans; [|apply IH].
  destruct e as [r|l]; simpl.
  - by rewrite receiveStartupInfo_updatedDeploy.
  - apply cycle_dom.
Qed.

Lemma visitDeployment_allInfo st (d : option Deployment) pods :
  allInfo (visitDeployment st d pods) = allInfo st.
Proof.
  unfold visitDeployment. destruct d as [d|]; [|done].
  destruct (Spec_Selector d); [|done].
  destruct (shouldUpdate _ _ pods); simpl; [|done].
  destruct (doUpdate (allInfo st) (updatedDeploy st) d pods)
    as [[updated err] ws]; simpl.
  destruct (foldl_applyWrite_updatedDeploy ws st) as [_ Hall].
  destruct err; [done|]. by destruct updated.
Qed.

Lemma cycle_allInfo l : ∀ st, allInfo (cycle st l) = allInfo st.
Proof.
  destruct l as [err|ds]; intros st; simpl; [done|].
  revert st. induction ds as [|[d pods] ds IH]; intros st; simpl; [done|].
  by rewrite IH, visitDeployment_allInfo.
Qed.

(** The store after any run of the system. *)
Lemma run_allInfo es : ∀ st m,
  allInfo (run st es) !! m =
    match allInfo st !! m with
    | Some r => Some r
    | None => firstPushed m (accepted es)
    end.
Proof.
  unfold run. induction es as [|e es IH]; intros st m.
  { simpl. by destruct (allInfo st !! m). }
  cbn [foldl]. rewrite IH.
  change (accepted (e :: es))
    with (match acceptedRecord e with
          | Some info => info :: accepted es
          | None => accepted es
          end).
  destruct e as [r|l]; cbn [step acceptedRecord].
  - unfold receiveStartupInfo.
    destruct (String.eqb (Method r) MethodPost); simpl; [|done].
    destruct (Decoded r) as [info|]; simpl; [|done].
    fold (identity info).
    destruct (allInfo st !! identity info) as [r0|] eqn:Hid; simpl.
    + destruct (allInfo st !! m) eqn:Hm; [done|].
      case_bool_decide; [congruence|done].
    + case_bool_decide as Hd.
      * subst m. by rewrite lookup_insert_eq, Hid.
      * rewrite lookup_insert_ne by done. done.
  - by rewrite cycle_allInfo.
Qed.

End Loop.

(** ** Scoring *)

Section Scoring.

Implicit Types (st : State) (d : Deployment) (pods : list (option Pod)).

(** C1. First write wins. After any sequence of well-formed pushes served
    from any state, the record stored under an identity is the one that was
    there before, or else the first one pushed for that identity, and all
    the pushes are answered with 200; a push for an identity that is
    already stored changes nothing. Over a whole run from the initial
    state, with loop iterations and rejected requests in between, the
    record stored under an identity is the first well-formed push for it. *)
Theorem receiveStartupInfo_first_write_wins :
  ∀ (infos : list containerStartupInfo) (es : list Event) (st : State),
    (∀ m, allInfo (receiveAll (pushOf <$> infos) st).1 !! m =
            match allInfo st !! m with
            | Some r => Some r
            | None => firstPushed m infos
            end)
    ∧ (receiveAll (pushOf <$> infos) st).2 = replicate (length infos) StatusOK
    ∧ (∀ info, is_Some (allInfo st !! identity info) →
         receiveStartupInfo (pushOf info) st = (st, StatusOK))
    ∧ (∀ m, allInfo (run initState es) !! m = firstPushed m (accepted es)).
Proof.
  intros infos es st. split; [|split; [|split]].
  - intros m. apply receiveAll_lookup.
  - apply receiveAll_codes.
  - intros info. apply receiveStartupInfo_duplicate.
  - intros m. by rewrite run_allInfo.
Qed.

Lemma receiveStartupInfo_first_write_wins_witness :
  receiveStartupInfo (pushOf (sampleRecord "a" 1 2))
    (receiveAll [pushOf (sampleRecord "a" 100 150)] initState).1
  = ((receiveAll [pushOf (sampleRecord "a" 100 150)] initState).1, StatusOK).
Proof.
  apply (receiveStartupInfo_first_write_wins [] []).
  by exists (sampleRecord "a" 100 150).
Defined.

(** C2. Completeness gating. In a run whose lookups all go through, with
    [receivedCount] the declared containers minus the lookups that find no
    record: if [receivedCount] is 0 or differs from [targetCount], the run
    returns (false, nil) and sets no gauge, and the loop body leaves the
    state as it is. Any run that sets a gauge has [receivedCount] equal to
    [targetCount] (and not 0) and returns (true, nil). *)
Theorem doUpdate_completeness_gating :
  ∀ st d pods,
    (prefixOK pods →
     receivedCount (allInfo st) pods = 0
     ∨ receivedCount (allInfo st) pods ≠ targetCount pods →
     doUpdate (allInfo st) (updatedDeploy st) d pods = ((false, None), [])
     ∧ visitDeployment st (Some d) pods = st)
    ∧ ((doUpdate (allInfo st) (updatedDeploy st) d pods).2 ≠ [] →
       receivedCount (allInfo st) pods = targetCount pods
       ∧ receivedCount (allInfo st) pods ≠ 0
       ∧ (doUpdate (allInfo st) (updatedDeploy st) d pods).1 = (true, None)).
Proof.
  intros st d pods. split.
  - intros Hok Hrc.
    assert (doUpdate (allInfo st) (updatedDeploy st) d pods = ((false, None), []))
      as Hrun.
    { rewrite doUpdate_prefixOK by done. cbv zeta.
      destruct (Z.eqb_spec (receivedCount (allInfo st) pods) 0); [done|].
      destruct (Z.eqb_spec (receivedCount (allInfo st) pods) (targetCount pods));
        [|done].
      destruct Hrc; done. }
    split; [done|]. by apply (visitDeployment_no_update st d pods None).
  - intros Hw. pose proof (doUpdate_writes_prefixOK _ _ _ _ Hw) as Hok.
    rewrite doUpdate_prefixOK in Hw |- * by done. cbv zeta in Hw |- *.
    destruct (Z.eqb_spec (receivedCount (allInfo st) pods) 0); [done|].
    destruct (Z.eqb_spec (receivedCount (allInfo st) pods) (targetCount pods));
      [|done].
    done.
Qed.

Lemma doUpdate_completeness_gating_witness :
  doUpdate sampleStore ∅ sampleDeploy
    [Some (samplePod "web-0" 1 ["containerd://a"]);
     Some (samplePod "web-1" 1 ["containerd://c"])] = ((false, None), []).
Proof.
  pose (st := {| allInfo := sampleStore; updatedDeploy := ∅;
                 deployPodsAvgStartupLatency := ∅; deployScaleLatency := ∅ |}).
  apply (doUpdate_completeness_gating st sampleDeploy
           [Some (samplePod "web-0" 1 ["containerd://a"]);
            Some (samplePod "web-1" 1 ["containerd://c"])]).
  - by apply prefixOKb_spec.
  - right. vm_compute. discriminate.
Defined.

(** C5. A container ID without the prefix [containerd://], on any status of
    any live pod, makes the run return (false, error) without setting a
    gauge, and the loop body leaves the whole state (gauges and tracked pod
    sets) as it is. *)
Theorem doUpdate_prefix_violation :
  ∀ st d pods p c,
    Some p ∈ pods → c ∈ Status_ContainerStatuses p →
    strings.HasPrefix (ContainerID c) containerNamePrefix = false →
    (∃ err, doUpdate (allInfo st) (updatedDeploy st) d pods
            = ((false, Some err), []))
    ∧ visitDeployment st (Some d) pods = st.
Proof.
  intros st d pods p c Hp Hc Hbad.
  destruct (doUpdate_bad_prefix (allInfo st) (updatedDeploy st) d pods p c
              Hp Hc Hbad) as [err Herr].
  split; [by exists err|].
  by apply (visitDeployment_no_update st d pods (Some err)).
Qed.

Lemma doUpdate_prefix_violation_witness :
  visitDeployment
    {| allInfo := sampleStore; updatedDeploy := ∅;
       deployPodsAvgStartupLatency := ∅; deployScaleLatency := ∅ |}
    (Some sampleDeploy)
    [Some (samplePod "web-0" 1 ["containerd://a"]);
     Some (samplePod "web-1" 1 ["docker://b"])]
  = {| allInfo := sampleStore; updatedDeploy := ∅;
       deployPodsAvgStartupLatency := ∅; deployScaleLatency := ∅ |}.
Proof.
  apply (doUpdate_prefix_violation _ sampleDeploy _
           (samplePod "web-1" 1 ["docker://b"])
           {| cs_Name := "app"; ContainerID := "docker://b" |}).
  - right. left.
  - left.
  - reflexivity.
Defined.

(** C9. The tracked pod set of a deployment is set to the names of the
    live pods when the gate is open and the run returns (true, nil); when
    the run returns anything else, or the gate is closed, the tracked pod
    sets stay as they are; and whatever pushes and loop iterations happen,
    a deployment that has a tracked pod set keeps having one. *)
Theorem updatedDeploy_discipline :
  ∀ st d pods,
    (Spec_Selector d ≠ None →
     shouldUpdate (updatedDeploy st) (keyOf d) pods = true →
     (doUpdate (allInfo st) (updatedDeploy st) d pods).1 = (true, None) →
     updatedDeploy (visitDeployment st (Some d) pods)
     = <[keyOf d := getPodNames pods]> (updatedDeploy st))
    ∧ ((doUpdate (allInfo st) (updatedDeploy st) d pods).1 ≠ (true, None) →
       updatedDeploy (visitDeployment st (Some d) pods) = updatedDeploy st)
    ∧ (shouldUpdate (updatedDeploy st) (keyOf d) pods = false →
       updatedDeploy (visitDeployment st (Some d) pods) = updatedDeploy st)
    ∧ (∀ es, dom (updatedDeploy st) ⊆ dom (updatedDeploy (run st es))).
Proof.
  intros st d pods. rewrite visitDeployment_updatedDeploy.
  split; [|split; [|split]].
  - intros Hsel -> Hrun.
    by rewrite !bool_decide_eq_true_2.
  - intros Hrun. rewrite (bool_decide_eq_false_2 _ Hrun).
    by rewrite andb_false_r.
  - intros ->. by rewrite andb_false_r.
  - intros es. apply run_dom.
Qed.

Lemma updatedDeploy_discipline_witness :
  updatedDeploy
    (visitDeployment
       {| allInfo := sampleStore; updatedDeploy := ∅;
          deployPodsAvgStartupLatency := ∅; deployScaleLatency := ∅ |}
       (Some sampleDeploy)
       [Some (samplePod "web-0" 1 ["containerd://a"]);
        Some (samplePod "web-1" 1 ["containerd://b"])])
  = {[ keyOf sampleDeploy := {[ "web-0"; "web-1" ]} ]}.
Proof.
  pose (st := {| allInfo := sampleStore; updatedDeploy := ∅;
                 deployPodsAvgStartupLatency := ∅; deployScaleLatency := ∅ |}).
  pose (pods := [Some (samplePod "web-0" 1 ["containerd://a"]);
                 Some (samplePod "web-1" 1 ["containerd://b"])]).
  destruct (updatedDeploy_discipline st sampleDeploy pods) as [Hset _].
  change (updatedDeploy (visitDeployment st (Some sampleDeploy) pods)
          = {[ keyOf sampleDeploy := {[ "web-0"; "web-1" ]} ]}).
  rewrite Hset.
  - reflexivity.
  - done.
  - reflexivity.
  - reflexivity.
Defined.

(** C3. In a run that returns (true, nil), the window is made of the
    records found for containers of pods whose name is not in the tracked
    pod set: [minStart] is the least of their starts (and [math.MaxInt64])
    and [maxEnd] the greatest of their ends (and 0). If [maxEnd > minStart]
    the scale-latency gauge of the deployment is set to [maxEnd - minStart]
    (an [int64] difference, converted); otherwise no scale-latency gauge is
    set and the gauge vector stays as it is, which is the case when every
    live pod is in the tracked pod set. *)
Theorem doUpdate_scale_latency_window :
  ∀ st d pods,
    (doUpdate (allInfo st) (updatedDeploy st) d pods).1 = (true, None) →
    let new := receivedNew (allInfo st) (lastPodNamesOf (updatedDeploy st) d) pods in
    let ws := (doUpdate (allInfo st) (updatedDeploy st) d pods).2 in
    let scale := float64_of_int (wrap64 (maxEnd new - minStart new)) in
    (∀ info, info ∈ new
       ↔ ∃ p c, Some p ∈ pods
                ∧ (pod_Name p ∉ lastPodNamesOf (updatedDeploy st) d)
                ∧ c ∈ Status_ContainerStatuses p
                ∧ storeGet (allInfo st) (recordName c) = Some info)
    ∧ (minStart new ≤ MaxInt64 ∧ (∀ info, info ∈ new → minStart new ≤ Start info)
       ∧ (minStart new = MaxInt64 ∨ minStart new ∈ Start <$> new))
    ∧ (0 ≤ maxEnd new ∧ (∀ info, info ∈ new → End_ info ≤ maxEnd new)
       ∧ (maxEnd new = 0 ∨ maxEnd new ∈ End_ <$> new))
    ∧ (maxEnd new > minStart new →
       SetScaleLatency (labelsOf d) scale ∈ ws
       ∧ deployScaleLatency (foldl applyWrite st ws)
         = <[labelsOf d := scale]> (deployScaleLatency st))
    ∧ (¬ maxEnd new > minStart new →
       (∀ l v, SetScaleLatency l v ∉ ws)
       ∧ deployScaleLatency (foldl applyWrite st ws) = deployScaleLatency st)
    ∧ ((∀ p, Some p ∈ pods → pod_Name p ∈ lastPodNamesOf (updatedDeploy st) d) →
       ¬ maxEnd new > minStart new)
    ∧ (inInt64 (maxEnd new - minStart new) →
       scale = float64_of_int (maxEnd new - minStart new)).
Proof.
  intros st d pods Hpub new ws scale.
  destruct (doUpdate_published _ _ _ _ Hpub) as (_ & _ & _ & Hws).
  fold ws in Hws. cbv zeta in Hws. fold new in Hws. fold scale in Hws.
  split; [intros info; apply elem_of_receivedNew|].
  split.
  { destruct (foldl_min_spec (Start <$> new) MaxInt64) as (Hle & Hall & Hin).
    split; [done|]. split; [|done].
    intros info Hinfo. apply Hall. by apply list_elem_of_fmap_2. }
  split.
  { destruct (foldl_max_spec (End_ <$> new) 0) as (Hle & Hall & Hin).
    split; [done|]. split; [|done].
    intros info Hinfo. apply Hall. by apply list_elem_of_fmap_2. }
  split; [|split; [|split]].
  - intros Hgt. rewrite Hws.
    destruct (Z.gtb_spec (maxEnd new) (minStart new)); [|lia].
    split; [right; left|done].
  - intros Hle. rewrite Hws.
    destruct (Z.gtb_spec (maxEnd new) (minStart new)); [lia|].
    split; [|done].
    intros l v [?|Hin%elem_of_nil]%elem_of_cons; done.
  - intros Hold. unfold new. rewrite receivedNew_all_old by done.
    unfold maxEnd, minStart, MaxInt64. simpl. lia.
  - intros Hin. unfold scale. by rewrite wrap64_inInt64.
Qed.

Lemma doUpdate_scale_latency_window_witness :
  deployScaleLatency
    (foldl applyWrite scaleState
       (doUpdate (allInfo scaleState) (updatedDeploy scaleState)
          sampleDeploy scalePods2).2)
  = <[labelsOf sampleDeploy := 50%float]> (deployScaleLatency scaleState).
Proof.
  assert ((doUpdate (allInfo scaleState) (updatedDeploy scaleState)
             sampleDeploy scalePods2).1 = (true, None)) as Hpub by reflexivity.
  destruct (doUpdate_scale_latency_window scaleState sampleDeploy scalePods2 Hpub)
    as (_ & _ & _ & Hset & _).
  destruct Hset as [_ ->]; [reflexivity|reflexivity].
Defined.

(** C4. In a run that returns (true, nil), [receivedCount] equals
    [targetCount] and the average gauge of the deployment is set to the sum
    of [end - start] over the records found for the container statuses of
    the live pods, whether the pod is tracked or not, divided by
    [receivedCount]. With two records (100,150) and (200,260) found and two
    containers declared, the average is 55. *)
Theorem doUpdate_average :
  ∀ st d pods,
    (doUpdate (allInfo st) (updatedDeploy st) d pods).1 = (true, None) →
    let infos := (received (allInfo st) pods).*2 in
    let ws := (doUpdate (allInfo st) (updatedDeploy st) d pods).2 in
    let avg := (sumLatency infos
                / float64_of_int (receivedCount (allInfo st) pods))%float in
    receivedCount (allInfo st) pods = targetCount pods
    ∧ (∀ info, info ∈ infos
         ↔ ∃ p c, Some p ∈ pods ∧ c ∈ Status_ContainerStatuses p
                  ∧ storeGet (allInfo st) (recordName c) = Some info)
    ∧ head ws = Some (SetAvgStartupLatency (labelsOf d) avg)
    ∧ (∀ l v, SetAvgStartupLatency l v ∈ ws → l = labelsOf d ∧ v = avg)
    ∧ deployPodsAvgStartupLatency (foldl applyWrite st ws)
      = <[labelsOf d := avg]> (deployPodsAvgStartupLatency st)
    ∧ ((λ info, (Start info, End_ info)) <$> infos ≡ₚ [(100, 150); (200, 260)] →
       targetCount pods = 2 → avg = 55%float).
Proof.
  intros st d pods Hpub infos ws avg.
  destruct (doUpdate_published _ _ _ _ Hpub) as (_ & Hrc & _ & Hws).
  fold ws in Hws. cbv zeta in Hws. fold infos in Hws. fold avg in Hws.
  split; [done|]. split; [intros info; apply elem_of_received_infos|].
  rewrite Hws. split; [done|]. split; [|split].
  - intros l v [[= -> ->]|Hin]%elem_of_cons; [done|].
    destruct (_ >? _); [|by apply elem_of_nil in Hin].
    apply elem_of_cons in Hin as [?|Hin%elem_of_nil]; done.
  - by destruct (_ >? _).
  - intros Hperm Htc. unfold avg. rewrite Hrc, Htc.
    apply Permutation_sym, Permutation_length_2_inv in Hperm.
    destruct infos as [|[n1 ns1 s1 e1 t1] [|[n2 ns2 s2 e2 t2] [|? ?]]];
      destruct Hperm as [Hp|Hp]; simplify_eq/=; reflexivity.
Qed.

Lemma doUpdate_average_witness :
  deployPodsAvgStartupLatency
    (foldl applyWrite initState
       (doUpdate sampleStore ∅ sampleDeploy scalePods1).2)
  = {[ labelsOf sampleDeploy := 55%float ]}.
Proof.
  pose (st := {| allInfo := sampleStore; updatedDeploy := ∅;
                 deployPodsAvgStartupLatency := ∅; deployScaleLatency := ∅ |}).
  assert ((doUpdate (allInfo st) (updatedDeploy st) sampleDeploy scalePods1).1
          = (true, None)) as Hpub by reflexivity.
  destruct (doUpdate_average st sampleDeploy scalePods1 Hpub)
    as (_ & _ & _ & _ & Hset & H55).
  change (deployPodsAvgStartupLatency
            (foldl applyWrite st
               (doUpdate (allInfo st) (updatedDeploy st) sampleDeploy scalePods1).2)
          = {[ labelsOf sampleDeploy := 55%float ]}).
  rewrite Hset, H55; reflexivity.
Defined.

(** C10. The denominator counts the containers declared in the pod specs,
    whatever the number of statuses reported: a run in which every reported
    status has its record, and some container is declared, returns
    (true, nil) and divides the sum over the records found by
    [targetCount]. There is such a run in which a pod reports fewer
    statuses than its spec declares containers: one record with a latency
    of 50, two containers declared, average 25. *)
Theorem doUpdate_counts_declared_containers :
  (∀ allInfo ud d pods,
     prefixOK pods → unreceivedCount allInfo pods = 0 → targetCount pods ≠ 0 →
     (doUpdate allInfo ud d pods).1 = (true, None)
     ∧ head (doUpdate allInfo ud d pods).2
       = Some (SetAvgStartupLatency (labelsOf d)
                 (sumLatency (received allInfo pods).*2
                  / float64_of_int (targetCount pods))%float))
  ∧ ∃ allInfo ud d pods p,
      Some p ∈ pods
      ∧ (length (Status_ContainerStatuses p) < length (Spec_Containers p))%nat
      ∧ prefixOK pods
      ∧ unreceivedCount allInfo pods = 0
      ∧ Z.of_nat (length (received allInfo pods)) = 1
      ∧ targetCount pods = 2
      ∧ sumLatency (received allInfo pods).*2 = 50%float
      ∧ (doUpdate allInfo ud d pods).1 = (true, None)
      ∧ head (doUpdate allInfo ud d pods).2
        = Some (SetAvgStartupLatency (labelsOf d) 25%float).
Proof.
  split.
  - intros allInfo ud d pods Hok Hun Htc.
    rewrite doUpdate_prefixOK by done. cbv zeta.
    unfold receivedCount. rewrite Hun, Z.sub_0_r.
    destruct (Z.eqb_spec (targetCount pods) 0); [done|].
    by rewrite Z.eqb_refl.
  - exists sampleStore, ∅, sampleDeploy,
      [Some (samplePod "web-0" 2 ["containerd://a"])],
      (samplePod "web-0" 2 ["containerd://a"]).
    split; [left|]. split; [simpl; lia|].
    split; [by apply prefixOKb_spec|].
    repeat split; reflexivity.
Qed.

End Scoring.

(** * Further properties of the exporter *)

Section Ingestion.

Implicit Types (st : State) (r : Request) (info : containerStartupInfo).

(** X1. The handler answers 200 or 400; 200 exactly to a POST whose body
    decodes; a request answered with 400 leaves the package state as it
    is; and no request changes the tracked pod sets or the gauges. *)
Theorem receiveStartupInfo_status :
  ∀ r st,
    ((receiveStartupInfo r st).2 = StatusOK
     ∨ (receiveStartupInfo r st).2 = StatusBadRequest)
    ∧ ((receiveStartupInfo r st).2 = StatusOK
       ↔ Method r = MethodPost ∧ is_Some (Decoded r))
    ∧ ((receiveStartupInfo r st).2 = StatusBadRequest →
       (receiveStartupInfo r st).1 = st)
    ∧ updatedDeploy (receiveStartupInfo r st).1 = updatedDeploy st
    ∧ deployPodsAvgStartupLatency (receiveStartupInfo r st).1
      = deployPodsAvgStartupLatency st
    ∧ deployScaleLatency (receiveStartupInfo r st).1 = deployScaleLatency st.
Proof.
  intros r st. unfold receiveStartupInfo.
  destruct (String.eqb_spec (Method r) MethodPost) as [Hm|Hm]; simpl.
  - destruct (Decoded r) as [info|]; simpl.
    + destruct (allInfo st !! _); simpl;
        (split; [by left|]); (split; [split; [by eauto|done]|]);
        (split; [discriminate|done]).
    + split; [by right|]. split; [|done].
      split; [discriminate|]. by intros [_ [? ?]].
  - split; [by right|]. split; [|done].
    split; [discriminate|]. by intros [? _].
Qed.

(** X2. Whatever has happened since the start, a stored record is one of
    the records of the well-formed pushes, and it is stored under its own
    (name, namespace). *)
Theorem run_store_only_pushed :
  ∀ es m info,
    allInfo (run initState es) !! m = Some info →
    identity info = m ∧ info ∈ accepted es.
Proof.
  intros es m info. rewrite run_allInfo. simpl. rewrite lookup_empty.
  unfold firstPushed. intros [Hin Hid]%find_some.
  split; [by apply bool_decide_eq_true in Hid|by apply list_elem_of_In].
Qed.

Lemma run_store_only_pushed_witness :
  identity (sampleRecord "a" 100 150)
  = {| name := "a"; namespace := defaultContainerdK8sNamespace |}
  ∧ sampleRecord "a" 100 150
    ∈ accepted [Push (pushOf (sampleRecord "a" 100 150));
                Tick (inl "unavailable");
                Push (pushOf (sampleRecord "a" 1 2))].
Proof.
  apply (run_store_only_pushed
           [Push (pushOf (sampleRecord "a" 100 150));
            Tick (inl "unavailable");
            Push (pushOf (sampleRecord "a" 1 2))]).
  reflexivity.
Defined.

End Ingestion.

Section Strings.

Implicit Types (s pre t : string).

Lemma substring_0_length k : ∀ s,
  String.length (String.substring 0 k s) = Nat.min k (String.length s).
Proof.
  induction k as [|k IH]; intros [|a s]; simpl; try done.
  by rewrite IH.
Qed.

Lemma substring_0_prefix k : ∀ s,
  String.prefix (String.substring 0 k s) s = true.
Proof.
  induction k as [|k IH]; intros [|a s]; simpl; try done.
  destruct (ascii_dec a a); [apply IH|done].
Qed.

Lemma prefix_refl s : String.prefix s s = true.
Proof.
  induction s as [|a s IH]; simpl; [done|].
  by destruct (ascii_dec a a).
Qed.

(** X3. The short name of a container is at most 10 bytes long, is a
    prefix of the name, is the name itself when that has at most 10 bytes,
    has exactly 10 bytes otherwise, and shortening twice is shortening
    once. *)
Theorem containerShortName_spec :
  ∀ n : string,
    (String.length (containerShortName n) ≤ maxContainerNameLength)%nat
    ∧ String.prefix (containerShortName n) n = true
    ∧ ((String.length n ≤ maxContainerNameLength)%nat →
       containerShortName n = n)
    ∧ ((maxContainerNameLength < String.length n)%nat →
       String.length (containerShortName n) = maxContainerNameLength)
    ∧ containerShortName (containerShortName n) = containerShortName n.
Proof.
  intros n. unfold containerShortName.
  destruct (Nat.ltb_spec maxContainerNameLength (String.length n)) as [Hlt|Hle].
  - rewrite substring_0_length.
    split; [lia|]. split; [apply substring_0_prefix|].
    split; [lia|]. split; [lia|].
    destruct (Nat.ltb_spec maxContainerNameLength
                (Nat.min maxContainerNameLength (String.length n))); [lia|done].
  - split; [done|]. split; [apply prefix_refl|].
    split; [done|]. split; [lia|].
    destruct (Nat.ltb_spec maxContainerNameLength (String.length n)); [lia|done].
Qed.

Lemma HasPrefix_append pre : ∀ t,
  strings.HasPrefix (pre +:+ t) pre = true
  ∧ strings.drop (String.length pre) (pre +:+ t) = t.
Proof.
  unfold strings.HasPrefix.
  induction pre as [|a pre IH]; intros t; simpl.
  - by destruct t.
  - destruct (ascii_dec a a); [apply IH|done].
Qed.

Lemma HasPrefix_split pre : ∀ s,
  strings.HasPrefix s pre = true →
  pre +:+ strings.drop (String.length pre) s = s.
Proof.
  unfold strings.HasPrefix.
  induction pre as [|a pre IH]; intros [|b s]; simpl; try done.
  destruct (ascii_dec a b) as [->|]; [|done].
  intros H.
  change (String b (pre +:+ strings.drop (String.length pre) s) = String b s).
  f_equal. by apply IH.
Qed.

(** Stripping the prefix undoes putting it in front: a string that has
    the prefix is the prefix followed by what [TrimPrefix] returns; a
    string that lacks it comes back unchanged; and [pre] followed by [t]
    has the prefix and is trimmed to [t]. *)
Theorem TrimPrefix_round_trip :
  ∀ s pre t,
    (strings.HasPrefix s pre = true → pre +:+ strings.TrimPrefix s pre = s)
    ∧ (strings.HasPrefix s pre = false → strings.TrimPrefix s pre = s)
    ∧ strings.HasPrefix (pre +:+ t) pre = true
    ∧ strings.TrimPrefix (pre +:+ t) pre = t.
Proof.
  intros s pre t. unfold strings.TrimPrefix.
  destruct (HasPrefix_append pre t) as [Hp Hd].
  split; [|split; [|split]].
  - intros H. rewrite H. by apply HasPrefix_split.
  - by intros ->.
  - done.
  - by rewrite Hp.
Qed.

Lemma TrimPrefix_round_trip_witness :
  "containerd://" +:+ strings.TrimPrefix "containerd://4f2a" "containerd://"
  = "containerd://4f2a".
Proof.
  apply (TrimPrefix_round_trip "containerd://4f2a" "containerd://" "").
  reflexivity.
Defined.

(** X4. A record pushed under the namespace [k8s.io] is the one that a
    scoring run looks up for the container ID [containerd://<name>]: the
    ID carries the prefix, and right after the push the lookup returns the
    record stored for that name (the pushed one when there was none). *)
Theorem pushed_record_is_looked_up :
  ∀ (st : State) (info : containerStartupInfo) (c : ContainerStatus),
    Namespace info = defaultContainerdK8sNamespace →
    ContainerID c = containerNamePrefix +:+ Name info →
    strings.HasPrefix (ContainerID c) containerNamePrefix = true
    ∧ storeGet (allInfo (receiveStartupInfo (pushOf info) st).1) (recordName c)
      = Some (default info (allInfo st !! identity info)).
Proof.
  intros st info c Hns Hid. unfold recordName, strings.TrimPrefix.
  rewrite Hid.
  destruct (HasPrefix_append containerNamePrefix (Name info)) as [-> ->].
  split; [done|].
  rewrite receiveStartupInfo_push. unfold storeGet. rewrite <- Hns.
  fold (identity info).
  destruct (allInfo st !! identity info) as [r0|] eqn:Hget; simpl.
  - done.
  - apply lookup_insert_eq.
Qed.

Lemma pushed_record_is_looked_up_witness :
  storeGet
    (allInfo (receiveStartupInfo (pushOf (sampleRecord "4f2a" 100 150)) initState).1)
    (recordName {| cs_Name := "app"; ContainerID := "containerd://4f2a" |})
  = Some (sampleRecord "4f2a" 100 150).
Proof.
  apply (pushed_record_is_looked_up initState (sampleRecord "4f2a" 100 150)
           {| cs_Name := "app"; ContainerID := "containerd://4f2a" |});
    reflexivity.
Defined.

End Strings.

Section PodSets.

Implicit Types (p : Pod) (pods : list (option Pod)).
Implicit Types (ud : gmap meta (gset string)) (m : meta).

(** X5. [equal] is symmetric, although it tests membership in one
    direction only, and a set is equal to itself. *)
Theorem equal_symmetric :
  ∀ a b : gset string, equal a b = equal b a ∧ equal a a = true.
Proof.
  intros a b. split; [|by apply equal_true_iff].
  destruct (equal a b) eqn:Hab, (equal b a) eqn:Hba; try done.
  - apply equal_true_iff in Hab. apply not_true_iff_false in Hba.
    exfalso. apply Hba, equal_true_iff. done.
  - apply equal_true_iff in Hba. apply not_true_iff_false in Hab.
    exfalso. apply Hab, equal_true_iff. done.
Qed.

Lemma size_foldl_addPodName pods : ∀ names,
  (size (foldl addPodName names pods) ≤ size names + length pods)%nat.
Proof.
  induction pods as [|[p|] pods IH]; intros names; simpl; [lia| |].
  - etrans; [apply IH|].
    rewrite size_union_alt, size_singleton.
    assert (size (names ∖ {[pod_Name p]}) ≤ size names)%nat; [|lia].
    apply subseteq_size. intros x [? _]%elem_of_difference. done.
  - etrans; [apply IH|]. lia.
Qed.

Lemma getPodNames_Permutation pods pods' :
  pods ≡ₚ pods' → getPodNames pods = getPodNames pods'.
Proof.
  intros Hperm. apply set_eq. intros k.
  rewrite !elem_of_getPodNames.
  split; intros (p & Hp & Hk); exists p; (split; [|done]).
  - by rewrite <- Hperm.
  - by rewrite Hperm.
Qed.

(** X6. The pod-name set does not depend on the order of the listed pods:
    a permutation of the list gives the same set; the set of a
    concatenation is the union; nil entries add nothing; and the set has
    at most as many names as the list has entries. *)
Theorem getPodNames_order_irrelevant :
  ∀ pods pods',
    (pods ≡ₚ pods' → getPodNames pods = getPodNames pods')
    ∧ getPodNames (pods ++ pods') = getPodNames pods ∪ getPodNames pods'
    ∧ getPodNames (None :: pods) = getPodNames pods
    ∧ (size (getPodNames pods) ≤ length pods)%nat.
Proof.
  intros pods pods'. split; [|split; [|split]].
  - apply getPodNames_Permutation.
  - apply set_eq. intros k.
    rewrite elem_of_union, !elem_of_getPodNames. split.
    + intros (p & [Hp|Hp]%elem_of_app & Hk); [left|right]; by exists p.
    + intros [(p & Hp & Hk)|(p & Hp & Hk)]; exists p;
        (split; [|done]); apply elem_of_app; [by left|by right].
  - done.
  - pose proof (size_foldl_addPodName pods ∅) as H.
    rewrite size_empty in H. done.
Qed.

Lemma getPodNames_order_irrelevant_witness :
  getPodNames [Some (samplePod "web-1" 1 []); None; Some (samplePod "web-0" 1 [])]
  = getPodNames [Some (samplePod "web-0" 1 []); Some (samplePod "web-1" 1 []); None].
Proof.
  destruct (getPodNames_order_irrelevant
              [Some (samplePod "web-1" 1 []); None; Some (samplePod "web-0" 1 [])]
              [Some (samplePod "web-0" 1 []); Some (samplePod "web-1" 1 []); None])
    as [Hperm _].
  apply Hperm.
  apply (perm_trans (l' := [None; Some (samplePod "web-1" 1 []);
                            Some (samplePod "web-0" 1 [])])).
  { apply perm_swap. }
  apply (perm_trans (l' := [None; Some (samplePod "web-0" 1 []);
                            Some (samplePod "web-1" 1 [])])).
  { apply perm_skip, perm_swap. }
  apply (perm_trans (l' := [Some (samplePod "web-0" 1 []); None;
                            Some (samplePod "web-1" 1 [])])).
  { apply perm_swap. }
  apply perm_skip, perm_swap.
Defined.

Lemma podUnsettled_spec p :
  podUnsettled p = true ↔ unsettledBy spacesOnly p.
Proof.
  unfold podUnsettled. split.
  - intros [Hl|He]%orb_true_iff.
    + left. apply Nat.eqb_eq in Hl. by apply length_zero_iff_nil.
    + right. apply existsb_exists in He as (c & Hc & Hb).
      exists c. split; [by apply list_elem_of_In|].
      by rewrite <- containerNotRunning_spec.
  - intros Hu.
    destruct (length (Status_ContainerStatuses p) =? 0)%nat eqn:Hl; [done|].
    destruct (existsb containerNotRunning _) eqn:He; [done|].
    exfalso. by apply (proj1 (pod_checks_spec p)).
Qed.

(** The loop of [shouldUpdate], in one step. *)
Lemma shouldUpdate_pods_eq pods : ∀ names,
  shouldUpdate_pods pods names =
    if existsb podUnsettled (livePods pods) then None
    else Some (foldl addPodName names pods).
Proof.
  induction pods as [|[p|] pods IH]; intros names; [done| |].
  - change (livePods (Some p :: pods)) with (p :: livePods pods).
    cbn [shouldUpdate_pods existsb foldl]. unfold podUnsettled at 1.
    destruct (length (Status_ContainerStatuses p) =? 0)%nat; [done|].
    destruct (existsb containerNotRunning _); [done|]. simpl. apply IH.
  - apply IH.
Qed.

Lemma shouldUpdate_eq ud m pods :
  shouldUpdate ud m pods =
    if (length pods =? 0)%nat then false
    else if existsb podUnsettled (livePods pods) then false
    else match ud !! m with
         | None => true
         | Some lastPodNames => negb (equal lastPodNames (getPodNames pods))
         end.
Proof.
  unfold shouldUpdate. rewrite shouldUpdate_pods_eq.
  destruct (length pods =? 0)%nat; [done|].
  by destruct (existsb podUnsettled (livePods pods)).
Qed.

Lemma existsb_elem_of_ext {A} (f : A → bool) (l l' : list A) :
  (∀ x, x ∈ l ↔ x ∈ l') → existsb f l = existsb f l'.
Proof.
  intros Hext.
  destruct (existsb f l) eqn:H1, (existsb f l') eqn:H2; try done.
  - apply existsb_exists in H1 as (x & Hx & Hf).
    apply not_true_iff_false in H2. exfalso. apply H2.
    apply existsb_exists. exists x. split; [|done].
    by apply list_elem_of_In, Hext, list_elem_of_In.
  - apply existsb_exists in H2 as (x & Hx & Hf).
    apply not_true_iff_false in H1. exfalso. apply H1.
    apply existsb_exists. exists x. split; [|done].
    by apply list_elem_of_In, Hext, list_elem_of_In.
Qed.

(** X7. The gate does not depend on the order in which the pods are
    listed: two listings that are permutations of each other get the same
    answer, for every tracked state. *)
Theorem shouldUpdate_order_irrelevant :
  ∀ ud m pods pods',
    pods ≡ₚ pods' → shouldUpdate ud m pods = shouldUpdate ud m pods'.
Proof.
  intros ud m pods pods' Hperm. rewrite !shouldUpdate_eq.
  rewrite (Permutation_length Hperm).
  rewrite (getPodNames_Permutation pods pods' Hperm).
  rewrite (existsb_elem_of_ext podUnsettled (livePods pods) (livePods pods')).
  - done.
  - intros p. rewrite !elem_of_livePods. by rewrite Hperm.
Qed.

Lemma shouldUpdate_order_irrelevant_witness :
  shouldUpdate {[keyOf sampleDeploy := {[ "web-0" ]}]} (keyOf sampleDeploy)
    [Some (samplePod "web-1" 1 ["containerd://b"]);
     Some (samplePod "web-0" 1 ["containerd://a"])]
  = shouldUpdate {[keyOf sampleDeploy := {[ "web-0" ]}]} (keyOf sampleDeploy)
      [Some (samplePod "web-0" 1 ["containerd://a"]);
       Some (samplePod "web-1" 1 ["containerd://b"])].
Proof.
  apply shouldUpdate_order_irrelevant. apply perm_swap.
Defined.

End PodSets.

Section Runs.

Implicit Types (p : Pod) (pods : list (option Pod)) (c : ContainerStatus).
Implicit Types (allInfo : gmap meta containerStartupInfo).
Implicit Types (ud : gmap meta (gset string)) (a : Acc) (d : Deployment).

Lemma doUpdate_no_partial_writes allInfo ud d pods :
  (doUpdate allInfo ud d pods).1 ≠ (true, None) →
  (doUpdate allInfo ud d pods).2 = [].
Proof.
  unfold doUpdate. destruct (doUpdate_pods _ _ _ _) as [err|a]; [done|].
  destruct (receivedLen a =? 0); [done|].
  destruct (negb _); [done|]. simpl. by intros [].
Qed.

(** X8. A run reports an update exactly when every reported container ID
    carries the prefix, every lookup finds its record and at least one
    container is declared; a run that does not report an update sets no
    gauge. *)
Theorem doUpdate_publishes_iff :
  ∀ allInfo ud d pods,
    ((doUpdate allInfo ud d pods).1 = (true, None)
     ↔ prefixOK pods ∧ unreceivedCount allInfo pods = 0 ∧ targetCount pods ≠ 0)
    ∧ ((doUpdate allInfo ud d pods).1 ≠ (true, None) →
       (doUpdate allInfo ud d pods).2 = []).
Proof.
  intros allInfo ud d pods. split; [|apply doUpdate_no_partial_writes].
  split.
  - intros (Hok & Hrc & Hnz & _)%doUpdate_published.
    unfold receivedCount in *. split; [done|]. lia.
  - intros (Hok & Hun & Htc).
    rewrite doUpdate_prefixOK by done. cbv zeta.
    unfold receivedCount. rewrite Hun, Z.sub_0_r.
    destruct (Z.eqb_spec (targetCount pods) 0); [done|].
    by rewrite Z.eqb_refl.
Qed.

Lemma find_app {A} (f : A → bool) (l1 l2 : list A) :
  List.find f (l1 ++ l2) =
    match List.find f l1 with
    | Some x => Some x
    | None => List.find f l2
    end.
Proof.
  induction l1 as [|x l1 IH]; simpl; [done|]. by destruct (f x).
Qed.

Lemma doUpdate_statuses_first_violation allInfo old p cs : ∀ a,
  match List.find (λ c, negb (strings.HasPrefix (ContainerID c) containerNamePrefix)) cs with
  | Some c => doUpdate_statuses allInfo old p cs a = inl (notContainerdError c p)
  | None => ∃ a', doUpdate_statuses allInfo old p cs a = inr a'
  end.
Proof.
  induction cs as [|c cs IH]; intros a; simpl; [by eexists|].
  destruct (strings.HasPrefix (ContainerID c) containerNamePrefix); simpl; [|done].
  apply IH.
Qed.

Lemma find_pair_fmap p (f : Pod * ContainerStatus → bool) cs :
  List.find f (pair p <$> cs) = pair p <$> List.find (λ c, f (p, c)) cs.
Proof.
  induction cs as [|c cs IH]; simpl; [done|]. by destruct (f (p, c)).
Qed.

Lemma doUpdate_pods_first_violation allInfo last pods : ∀ a p c,
  firstViolation pods = Some (p, c) →
  doUpdate_pods allInfo last pods a = inl (notContainerdError c p).
Proof.
  unfold firstViolation.
  induction pods as [|[q|] pods IH]; intros a p c; [done| |].
  - change (statusesOf (Some q :: pods))
      with ((pair q <$> Status_ContainerStatuses q) ++ statusesOf pods)%list.
    rewrite find_app, find_pair_fmap. cbn [doUpdate_pods snd].
    pose proof (doUpdate_statuses_first_violation allInfo
                  (bool_decide (pod_Name q ∈ last)) q (Status_ContainerStatuses q)
                  (addTarget (Z.of_nat (length (Spec_Containers q))) a)) as Hst.
    destruct (List.find _ (Status_ContainerStatuses q)) as [c'|]; simpl.
    + intros [= -> ->]. by rewrite Hst.
    + destruct Hst as [a' ->]. apply IH.
  - apply IH.
Qed.

Lemma firstViolation_None pods :
  firstViolation pods = None → prefixOK pods.
Proof.
  unfold firstViolation, statusesOf. intros Hnone p c Hp Hc.
  pose proof (find_none _ _ Hnone (p, c)) as Hf. simpl in Hf.
  apply negb_false_iff, Hf, list_elem_of_In, list_elem_of_bind.
  exists p. split; [|by apply elem_of_livePods].
  by apply list_elem_of_fmap_2.
Qed.

(** X9. When some container ID lacks the prefix, the error that a run
    returns is the one for the first such status in the order of the
    listing (pods in order, the statuses of a pod in order), and nothing
    else is done; when none does, the run returns no error. *)
Theorem doUpdate_error_names_first_violation :
  ∀ allInfo ud d pods,
    match firstViolation pods with
    | Some (p, c) =>
        strings.HasPrefix (ContainerID c) containerNamePrefix = false
        ∧ Some p ∈ pods ∧ c ∈ Status_ContainerStatuses p
        ∧ doUpdate allInfo ud d pods = ((false, Some (notContainerdError c p)), [])
    | None => prefixOK pods ∧ (doUpdate allInfo ud d pods).1.2 = None
    end.
Proof.
  intros allInfo ud d pods.
  destruct (firstViolation pods) as [[p c]|] eqn:Hfv.
  - pose proof Hfv as Hfind. unfold firstViolation in Hfind.
    apply find_some in Hfind as [Hin Hbad]. simpl in Hbad.
    apply negb_true_iff in Hbad.
    apply list_elem_of_In, list_elem_of_bind in Hin as (q & Hc & Hq).
    apply list_elem_of_fmap in Hc as (c' & [= <- <-] & Hc).
    apply elem_of_livePods in Hq.
    split; [done|]. split; [done|]. split; [done|].
    unfold doUpdate. by rewrite (doUpdate_pods_first_violation _ _ _ _ p c).
  - pose proof (firstViolation_None pods Hfv) as Hok. split; [done|].
    rewrite doUpdate_prefixOK by done. cbv zeta.
    destruct (_ =? 0); [done|]. by destruct (negb _).
Qed.

Lemma lookupInfo_ext (A B : gmap meta containerStartupInfo) old n a :
  storeGet A n = storeGet B n → lookupInfo A old n a = lookupInfo B old n a.
Proof. unfold storeGet, lookupInfo. by intros ->. Qed.

Lemma doUpdate_statuses_ext (A B : gmap meta containerStartupInfo) old p cs :
  (∀ n, storeGet A n = storeGet B n) →
  ∀ a, doUpdate_statuses A old p cs a = doUpdate_statuses B old p cs a.
Proof.
  intros Hext. induction cs as [|c cs IH]; intros a; simpl; [done|].
  destruct (strings.HasPrefix _ _); [|done].
  by rewrite (lookupInfo_ext A B), IH.
Qed.

Lemma doUpdate_pods_ext (A B : gmap meta containerStartupInfo) last pods :
  (∀ n, storeGet A n = storeGet B n) →
  ∀ a, doUpdate_pods A last pods a = doUpdate_pods B last pods a.
Proof.
  intros Hext. induction pods as [|[p|] pods IH]; intros a; simpl; [done| |done].
  rewrite (doUpdate_statuses_ext A B) by done.
  destruct (doUpdate_statuses B _ p _ _); [done|]. apply IH.
Qed.

(** X10. A run reads the store only under the namespace [k8s.io]: the
    records stored under any other namespace can be dropped, and two
    stores that agree on that namespace give the same result and the same
    gauge values. *)
Theorem doUpdate_reads_only_k8s_io :
  ∀ (A : gmap meta containerStartupInfo) ud d pods,
    doUpdate (filter (λ kv, namespace kv.1 = defaultContainerdK8sNamespace) A)
             ud d pods
    = doUpdate A ud d pods
    ∧ ∀ B : gmap meta containerStartupInfo,
        (∀ n, A !! {| name := n; namespace := defaultContainerdK8sNamespace |}
              = B !! {| name := n; namespace := defaultContainerdK8sNamespace |}) →
        doUpdate A ud d pods = doUpdate B ud d pods.
Proof.
  intros A ud d pods.
  assert (∀ B : gmap meta containerStartupInfo,
            (∀ n, storeGet A n = storeGet B n) →
            doUpdate A ud d pods = doUpdate B ud d pods) as Hext.
  { intros B HAB. unfold doUpdate. by rewrite (doUpdate_pods_ext A B). }
  split; [|done].
  symmetry. apply Hext. intros n. unfold storeGet.
  destruct (A !! _) as [info|] eqn:Hget.
  - symmetry. by apply map_lookup_filter_Some.
  - symmetry. apply map_lookup_filter_None. by left.
Qed.

(** X11. No overflow in practice: in a run that reports an update, if the
    records found for the new pods have non-negative starts and ends within
    [int64], and [maxEnd > minStart], then the difference is positive and
    within [int64], and the scale-latency gauge is set to that difference. *)
Theorem scale_latency_in_range :
  ∀ (st : State) d pods,
    (doUpdate (allInfo st) (updatedDeploy st) d pods).1 = (true, None) →
    let new := receivedNew (allInfo st) (lastPodNamesOf (updatedDeploy st) d) pods in
    (∀ info, info ∈ new → 0 ≤ Start info ∧ End_ info ≤ MaxInt64) →
    maxEnd new > minStart new →
    0 < maxEnd new - minStart new ≤ MaxInt64
    ∧ SetScaleLatency (labelsOf d) (float64_of_int (maxEnd new - minStart new))
      ∈ (doUpdate (allInfo st) (updatedDeploy st) d pods).2.
Proof.
  intros st d pods Hpub new Hrange Hgt.
  destruct (doUpdate_published _ _ _ _ Hpub) as (_ & _ & _ & Hws).
  cbv zeta in Hws. fold new in Hws.
  assert (0 ≤ minStart new) as Hmin.
  { destruct (foldl_min_spec (Start <$> new) MaxInt64) as (_ & _ & [Heq|Hin]).
    - unfold minStart. rewrite Heq. unfold MaxInt64. lia.
    - apply list_elem_of_fmap in Hin as (info & Heq & Hin).
      unfold minStart. rewrite Heq. by apply Hrange. }
  assert (maxEnd new ≤ MaxInt64) as Hmax.
  { destruct (foldl_max_spec (End_ <$> new) 0) as (_ & _ & [Heq|Hin]).
    - unfold maxEnd. rewrite Heq. unfold MaxInt64. lia.
    - apply list_elem_of_fmap in Hin as (info & Heq & Hin).
      unfold maxEnd. rewrite Heq. by apply Hrange. }
  split; [lia|]. rewrite Hws.
  destruct (Z.gtb_spec (maxEnd new) (minStart new)); [|lia].
  rewrite wrap64_inInt64; [right; left|].
  unfold inInt64, MinInt64, MaxInt64 in *. lia.
Qed.

Lemma scale_latency_in_range_witness :
  SetScaleLatency (labelsOf sampleDeploy) (float64_of_int (450 - 400))
  ∈ (doUpdate (allInfo scaleState) (updatedDeploy scaleState)
       sampleDeploy scalePods2).2.
Proof.
  apply (scale_latency_in_range scaleState sampleDeploy scalePods2).
  - reflexivity.
  - intros info Hin.
    assert (info = sampleRecord "c" 400 450) as ->; [|by vm_compute].
    apply list_elem_of_singleton. exact Hin.
  - reflexivity.
Defined.

End Runs.

Section Polling.

Implicit Types (st : State) (d : Deployment) (pods : list (option Pod)).

(** The two outcomes of a visit: nothing, or the gauges and the tracked
    pod set of the deployment are set. *)
Lemma visitDeployment_cases st d pods :
  visitDeployment st (Some d) pods = st
  ∨ (shouldUpdate (updatedDeploy st) (keyOf d) pods = true
     ∧ (doUpdate (allInfo st) (updatedDeploy st) d pods).1 = (true, None)
     ∧ visitDeployment st (Some d) pods
       = setUpdatedDeploy (keyOf d) (getPodNames pods)
           (foldl applyWrite st
              (doUpdate (allInfo st) (updatedDeploy st) d pods).2)).
Proof.
  unfold visitDeployment, keyOf.
  destruct (Spec_Selector d); [|by left].
  destruct (shouldUpdate _ _ pods); simpl; [|by left].
  pose proof (doUpdate_no_partial_writes (allInfo st) (updatedDeploy st) d pods)
    as Hnw.
  destruct (doUpdate (allInfo st) (updatedDeploy st) d pods)
    as [[updated err] ws]; simpl in *.
  destruct err as [e|]; [left; by rewrite Hnw|].
  destruct updated; [by right|]. left. by rewrite Hnw.
Qed.

(** The state after a run that reports an update. *)
Lemma published_state st d pods :
  (doUpdate (allInfo st) (updatedDeploy st) d pods).1 = (true, None) →
  let st1 := setUpdatedDeploy (keyOf d) (getPodNames pods)
               (foldl applyWrite st
                  (doUpdate (allInfo st) (updatedDeploy st) d pods).2) in
  allInfo st1 = allInfo st
  ∧ updatedDeploy st1 = <[keyOf d := getPodNames pods]> (updatedDeploy st)
  ∧ (∃ avg, deployPodsAvgStartupLatency st1
            = <[labelsOf d := avg]> (deployPodsAvgStartupLatency st))
  ∧ (deployScaleLatency st1 = deployScaleLatency st
     ∨ ∃ v, deployScaleLatency st1 = <[labelsOf d := v]> (deployScaleLatency st)).
Proof.
  intros Hpub. destruct (doUpdate_published _ _ _ _ Hpub) as (_ & _ & _ & ->).
  cbv zeta. destruct (_ >? _); simpl.
  - split; [done|]. split; [done|]. split; [by eexists|]. right. by eexists.
  - split; [done|]. split; [done|]. split; [by eexists|]. by left.
Qed.

Lemma published_live_pod allInfo ud d pods :
  (doUpdate allInfo ud d pods).1 = (true, None) → getPodNames pods ≠ ∅.
Proof.
  intros (_ & Hrc & Hnz & _)%doUpdate_published.
  assert (targetCount pods ≠ 0) as Htc by lia.
  unfold targetCount in Htc.
  destruct (livePods pods) as [|p ps] eqn:Hlive; [done|].
  assert (pod_Name p ∈ getPodNames pods) as Hin; [|set_solver].
  apply elem_of_getPodNames. exists p. split; [|done].
  apply elem_of_livePods. rewrite Hlive. left.
Qed.

(** X12. Visiting a deployment a second time with the same pods, with no
    push in between, changes nothing: the loop body is idempotent. *)
Theorem visitDeployment_idempotent :
  ∀ st (d : option Deployment) pods,
    visitDeployment (visitDeployment st d pods) d pods
    = visitDeployment st d pods.
Proof.
  intros st [d|] pods; [|done].
  destruct (visitDeployment_cases st d pods) as [Hsame|(Hgate & Hpub & Hvisit)].
  { by rewrite !Hsame. }
  rewrite Hvisit.
  destruct (published_state st d pods Hpub) as (_ & Hud & _).
  cbv zeta in Hud.
  apply visitDeployment_gate_closed. rewrite Hud.
  rewrite shouldUpdate_eq in Hgate |- *.
  destruct (length pods =? 0)%nat; [done|].
  destruct (existsb podUnsettled (livePods pods)); [done|].
  rewrite lookup_insert_eq.
  apply negb_false_iff, equal_true_iff. done.
Qed.

Lemma foldl_applyWrite_other ws : ∀ st (l : string * string),
  (∀ w, w ∈ ws → match w with
                 | SetAvgStartupLatency l' _ | SetScaleLatency l' _ => l' ≠ l
                 end) →
  deployPodsAvgStartupLatency (foldl applyWrite st ws) !! l
  = deployPodsAvgStartupLatency st !! l
  ∧ deployScaleLatency (foldl applyWrite st ws) !! l
    = deployScaleLatency st !! l.
Proof.
  induction ws as [|w ws IH]; intros st l Hws; simpl; [done|].
  destruct (IH (applyWrite st w) l) as [-> ->].
  { intros w' Hw'. apply Hws. by right. }
  assert (w ∈ w :: ws) as Hw%Hws by left.
  destruct w; simpl; by rewrite lookup_insert_ne.
Qed.

Lemma doUpdate_write_labels allInfo ud d pods w :
  w ∈ (doUpdate allInfo ud d pods).2 →
  match w with
  | SetAvgStartupLatency l _ | SetScaleLatency l _ => l = labelsOf d
  end.
Proof.
  unfold doUpdate. destruct (doUpdate_pods _ _ _ _) as [err|a]; simpl.
  { by intros ?%elem_of_nil. }
  destruct (receivedLen a =? 0); [by intros ?%elem_of_nil|].
  destruct (negb _); [by intros ?%elem_of_nil|]. simpl.
  intros [->|Hw]%elem_of_cons; [done|].
  destruct (_ >? _); [|by apply elem_of_nil in Hw].
  by apply list_elem_of_singleton in Hw as ->.
Qed.

Lemma visitDeployment_frame st (d : option Deployment) pods (k : meta) :
  keyOf <$> d ≠ Some k →
  updatedDeploy (visitDeployment st d pods) !! k = updatedDeploy st !! k
  ∧ deployPodsAvgStartupLatency (visitDeployment st d pods) !! (name k, namespace k)
    = deployPodsAvgStartupLatency st !! (name k, namespace k)
  ∧ deployScaleLatency (visitDeployment st d pods) !! (name k, namespace k)
    = deployScaleLatency st !! (name k, namespace k).
Proof.
  intros Hk. destruct d as [d|]; [|done]. simpl in Hk.
  assert (keyOf d ≠ k) as Hne by congruence.
  destruct (visitDeployment_cases st d pods) as [->|(_ & _ & ->)]; [done|].
  destruct (foldl_applyWrite_updatedDeploy
              (doUpdate (allInfo st) (updatedDeploy st) d pods).2 st) as [Hud _].
  destruct (foldl_applyWrite_other
              (doUpdate (allInfo st) (updatedDeploy st) d pods).2 st
              (name k, namespace k)) as [Havg Hscale].
  { intros w Hw%doUpdate_write_labels.
    destruct w as [l v|l v]; subst l; unfold labelsOf;
      intros [= Hn Hns]; apply Hne; unfold keyOf; destruct k; simpl in *;
      by subst. }
  simpl. rewrite lookup_insert_ne by done. by rewrite Hud.
Qed.

(** X13. One iteration of the polling loop never touches the record store,
    and leaves the tracked pod set and both gauges of every deployment
    that is not in the listing as they are; when listing the deployments
    fails, the whole state stays as it is. *)
Theorem cycle_frame :
  ∀ st (l : Listing),
    allInfo (cycle st l) = allInfo st
    ∧ (∀ k, k ∉ visitedKeys l →
         updatedDeploy (cycle st l) !! k = updatedDeploy st !! k
         ∧ deployPodsAvgStartupLatency (cycle st l) !! (name k, namespace k)
           = deployPodsAvgStartupLatency st !! (name k, namespace k)
         ∧ deployScaleLatency (cycle st l) !! (name k, namespace k)
           = deployScaleLatency st !! (name k, namespace k))
    ∧ (∀ err, l = inl err → cycle st l = st).
Proof.
  intros st l. split; [apply cycle_allInfo|]. split; [|by intros err ->].
  intros k. destruct l as [err|ds]; simpl; [done|].
  revert st. induction ds as [|[d pods] ds IH]; intros st Hk; simpl; [done|].
  simpl in Hk.
  assert (keyOf <$> d ≠ Some k ∧ k ∉ omap (λ dp, keyOf <$> dp.1) ds) as [Hd Hds].
  { destruct d as [d|]; simpl in *.
    - apply not_elem_of_cons in Hk as [Hk1 Hk2]. split; [congruence|done].
    - done. }
  destruct (IH (visitDeployment st d pods) Hds) as (-> & -> & ->).
  by apply visitDeployment_frame.
Qed.

Lemma cycle_frame_witness :
  updatedDeploy
    (cycle scaleState
       (inr [(Some {| deploy_Name := "db"; deploy_Namespace := "default";
                      Spec_Selector := Some [] |},
              [Some (samplePod "db-0" 1 ["containerd://c"])])]))
  !! keyOf sampleDeploy
  = updatedDeploy scaleState !! keyOf sampleDeploy.
Proof.
  apply (cycle_frame scaleState
           (inr [(Some {| deploy_Name := "db"; deploy_Namespace := "default";
                          Spec_Selector := Some [] |},
                  [Some (samplePod "db-0" 1 ["containerd://c"])])])).
  simpl. intros Hin%list_elem_of_singleton. discriminate.
Defined.

Lemma Consistent_init : Consistent initState.
Proof.
  split; simpl.
  - intros m info. by rewrite lookup_empty.
  - intros m names. by rewrite lookup_empty.
  - intros m [? H]. by rewrite lookup_empty in H.
  - intros l [? H]. by rewrite lookup_empty in H.
Qed.

Lemma Consistent_receive r st :
  Consistent st → Consistent (receiveStartupInfo r st).1.
Proof.
  intros [Hid Hne Havg Hsc]. unfold receiveStartupInfo.
  destruct (negb _); [done|].
  destruct (Decoded r) as [info|]; [|done].
  destruct (allInfo st !! _) eqn:Hget; [done|].
  split; simpl; try done.
  intros m i. destruct (decide (identity info = m)) as [<-|Hm].
  - unfold identity. rewrite lookup_insert_eq. by intros [= ->].
  - unfold identity in Hm. rewrite lookup_insert_ne by done. apply Hid.
Qed.

Lemma Consistent_visit st (d : option Deployment) pods :
  Consistent st → Consistent (visitDeployment st d pods).
Proof.
  intros Hc. destruct d as [d|]; [|done].
  destruct (visitDeployment_cases st d pods) as [->|(_ & Hpub & ->)]; [done|].
  destruct (published_state st d pods Hpub) as (Hall & Hud & [avg Havg] & Hsc).
  cbv zeta in Hall, Hud, Havg, Hsc.
  destruct Hc as [Hid Hne Hta Hsa].
  split.
  - rewrite Hall. apply Hid.
  - rewrite Hud. intros m names.
    destruct (decide (keyOf d = m)) as [<-|Hm].
    + rewrite lookup_insert_eq. intros [= <-].
      by apply (published_live_pod _ _ _ _ Hpub).
    + rewrite lookup_insert_ne by done. apply Hne.
  - rewrite Hud, Havg. intros m.
    destruct (decide (keyOf d = m)) as [<-|Hm].
    + intros _. unfold labelsOf, keyOf; simpl. rewrite lookup_insert_eq. eauto.
    + rewrite lookup_insert_ne by done. intros Hm'%Hta.
      destruct (decide (labelsOf d = (name m, namespace m))) as [->|Hl].
      * rewrite lookup_insert_eq. eauto.
      * by rewrite lookup_insert_ne.
  - rewrite Havg. intros l Hl.
    destruct (decide (labelsOf d = l)) as [<-|Hne'].
    + rewrite lookup_insert_eq. eauto.
    + rewrite lookup_insert_ne by done. apply Hsa.
      destruct Hsc as [Hsc|[v Hsc]]; rewrite Hsc in Hl; [done|].
      by rewrite lookup_insert_ne in Hl.
Qed.

Lemma Consistent_cycle l : ∀ st, Consistent st → Consistent (cycle st l).
Proof.
  destruct l as [err|ds]; intros st Hc; simpl; [done|].
  revert st Hc. induction ds as [|[d pods] ds IH]; intros st Hc; simpl; [done|].
  by apply IH, Consistent_visit.
Qed.

(** X14. Whatever pushes and loop iterations have happened since the
    start: every record is stored under its own (name, namespace); no
    tracked pod set is empty; every deployment with a tracked pod set has
    an average gauge; and every scale-latency gauge comes with an average
    gauge for the same labels. *)
Theorem run_Consistent : ∀ es, Consistent (run initState es).
Proof.
  intros es. unfold run.
  pose proof Consistent_init as Hc. revert Hc. generalize initState.
  induction es as [|e es IH]; intros st Hc; simpl; [done|].
  apply IH. destruct e as [r|l]; simpl.
  - by apply Consistent_receive.
  - by apply Consistent_cycle.
Qed.

End Polling.

(** * Properties of the collector *)

Section Collector.

Implicit Types (dir : DirEntry) (dirs : list DirEntry).
Implicit Types (info : containerStartupInfo) (s : string).

Local Arguments Ascii.eqb : simpl never.

(** What [strconv.Atoi] returns is in the range of [int]. *)
Lemma Atoi_inInt64 s z : strconv.Atoi s = Some z → inInt64 z.
Proof.
  unfold strconv.Atoi.
  destruct (match s with
            | String "-" r => (true, r)
            | String "+" r => (false, r)
            | _ => (false, s)
            end) as [neg body].
  destruct body as [|a body]; [done|].
  destruct (strconv.digits (String a body) 0) as [n|]; [|done].
  cbv zeta.
  destruct ((MinInt64 <=? _) && (_ <=? MaxInt64)) eqn:Hr; [|done].
  intros [= <-]. apply andb_true_iff in Hr as [H1 H2].
  unfold inInt64. lia.
Qed.

Lemma collectEntry_Some namespace dir info :
  collectEntry namespace dir = Some info →
  Name info = dir_Name dir ∧ Namespace info = namespace
  ∧ End_ info ≠ 0 ∧ inInt64 (Start info) ∧ inInt64 (End_ info)
  ∧ ∃ bs, dir_Startup dir = Content bs.
Proof.
  unfold collectEntry.
  destruct (dir_Startup dir) as [| |bs]; [done|done|]. cbv zeta.
  destruct (strings.Split _ _) as [|line0 [|line1 rest]]; [done|done|].
  destruct (strconv.Atoi line0) as [start|] eqn:Hs; [|done].
  destruct (strconv.Atoi line1) as [end_|] eqn:He; [|done].
  destruct (Z.eqb_spec end_ 0); [done|].
  intros [= <-]. simpl.
  apply Atoi_inInt64 in Hs, He. eauto 10.
Qed.

Lemma collect_foldl namespace dirs : ∀ acc : list containerStartupInfo,
  foldl (λ (found : list containerStartupInfo) dir,
           match collectEntry namespace dir with
           | Some i => (found ++ [i])%list
           | None => found
           end) acc dirs
  = (acc ++ omap (collectEntry namespace) dirs)%list.
Proof.
  induction dirs as [|dir dirs IH]; intros acc; simpl.
  - by rewrite app_nil_r.
  - rewrite IH. destruct (collectEntry namespace dir); [|done].
    by rewrite <- app_assoc.
Qed.

Lemma collect_omap namespace dirs :
  collect namespace (Some dirs) = omap (collectEntry namespace) dirs.
Proof. unfold collect. by rewrite collect_foldl. Qed.

Lemma omap_names_sublist namespace dirs :
  (Name <$> omap (collectEntry namespace) dirs) `sublist_of` (dir_Name <$> dirs).
Proof.
  induction dirs as [|dir dirs IH]; simpl; [constructor|].
  destruct (collectEntry namespace dir) as [info|] eqn:He.
  - apply collectEntry_Some in He as (Hn & _).
    change (Name info :: (Name <$> omap (collectEntry namespace) dirs)
            `sublist_of` dir_Name dir :: (dir_Name <$> dirs)).
    rewrite Hn. by constructor.
  - by constructor.
Qed.

Lemma collect_elem namespace (readDir : option (list DirEntry)) info :
  info ∈ collect namespace readDir →
  Namespace info = namespace ∧ End_ info ≠ 0
  ∧ inInt64 (Start info) ∧ inInt64 (End_ info)
  ∧ ∃ dirs dir bs, readDir = Some dirs ∧ dir ∈ dirs
                   ∧ Name info = dir_Name dir
                   ∧ dir_Startup dir = Content bs.
Proof.
  destruct readDir as [dirs|]; [|by intros ?%elem_of_nil].
  rewrite collect_omap. intros (dir & Hdir & He)%list_elem_of_omap.
  apply collectEntry_Some in He as (Hn & Hns & He0 & Hs & He & bs & Hbs).
  repeat (split; [done|]). by exists dirs, dir, bs.
Qed.

(** X15. Every record that [collect] returns for a namespace carries that
    namespace and the name of a listed directory whose startup file could
    be read, has an end other than 0 (an unfinished container is never
    collected) and timestamps within [int64]; the records come in the
    order of the directories, at most one per directory; and a namespace
    that cannot be listed gives no record. *)
Theorem collect_records :
  ∀ namespace (readDir : option (list DirEntry)),
    (∀ info, info ∈ collect namespace readDir →
       Namespace info = namespace ∧ End_ info ≠ 0
       ∧ inInt64 (Start info) ∧ inInt64 (End_ info)
       ∧ ∃ dirs dir bs, readDir = Some dirs ∧ dir ∈ dirs
                        ∧ Name info = dir_Name dir
                        ∧ dir_Startup dir = Content bs)
    ∧ (Name <$> collect namespace readDir)
        `sublist_of` (dir_Name <$> default [] readDir)
    ∧ collect namespace None = [].
Proof.
  intros namespace readDir. split; [intros info; apply collect_elem|].
  destruct readDir as [dirs|].
  - split; [|done]. rewrite collect_omap. apply omap_names_sublist.
  - split; [constructor|done].
Qed.

Lemma collectAll_foldl (fs : string → option (list DirEntry)) (names : list string) :
  ∀ (acc : list containerStartupInfo) info,
    info ∈ foldl (λ (all : list containerStartupInfo) (n : string),
                    (all ++ collect n (fs n))%list) acc names →
    info ∈ acc ∨ ∃ n : string, n ∈ names ∧ info ∈ collect n (fs n).
Proof.
  induction names as [|n names IH]; intros acc info; simpl; [by left|].
  intros [[Hacc|Hn]%elem_of_app|(n' & Hd & Hin)]%IH.
  - by left.
  - right. exists n. split; [left|done].
  - right. exists n'. split; [by right|done].
Qed.

(** X16. One round of the collector never hands a record with end 0 to
    [push]: whether it scans the namespace given on the command line or,
    without one, every directory of the containerd root, each record to be
    pushed has a non-zero end and carries the namespace it was found
    under. Without a namespace, a root that cannot be listed ends the
    command. *)
Theorem collectAll_records :
  ∀ ns root (fs : string → option (list DirEntry)),
    (∀ all info,
       collectAll ns root fs = Some all → info ∈ all →
       End_ info ≠ 0
       ∧ info ∈ collect (Namespace info) (fs (Namespace info))
       ∧ (ns ≠ "" → Namespace info = ns)
       ∧ (ns = "" → ∃ names, root = Some names ∧ Namespace info ∈ names))
    ∧ (ns = "" → root = None → collectAll ns root fs = None).
Proof.
  intros ns root fs. split.
  - intros all info. unfold collectAll.
    destruct (String.eqb_spec ns "") as [->|Hns].
    + destruct root as [names|]; [|done]. intros [= <-] Hin.
      apply collectAll_foldl in Hin as [Hin|(dir & Hdir & Hin)];
        [by apply elem_of_nil in Hin|].
      destruct (collect_elem dir (fs dir) info Hin) as (Hn & He & _).
      rewrite Hn. split; [done|]. split; [done|]. split; [done|].
      intros _. by exists names.
    + intros [= <-] Hin. simpl in Hin.
      destruct (collect_elem ns (fs ns) info Hin) as (Hn & He & _).
      rewrite Hn. split; [done|]. split; [done|]. split; [done|]. done.
  - intros -> ->. done.
Qed.

Lemma push_logged_all f (infos : list containerStartupInfo) : ∀ log,
  Forall (λ i, accepts f i = true) infos →
  push (logged f) infos log = ((log ++ infos)%list, None).
Proof.
  induction infos as [|i infos IH]; intros log Hall; simpl.
  - by rewrite app_nil_r.
  - apply Forall_cons in Hall as [Hi Hall]. unfold accepts in Hi.
    destruct (f i) as [|code]; [done|]. rewrite Hi. simpl.
    rewrite IH by done. by rewrite <- app_assoc.
Qed.

Lemma push_logged_failure f (pre : list containerStartupInfo) i post : ∀ log,
  Forall (λ i, accepts f i = true) pre → accepts f i = false →
  push (logged f) (pre ++ i :: post) log
  = ((log ++ pre ++ [i])%list, Some (pushErrorOf (f i))).
Proof.
  induction pre as [|j pre IH]; intros log Hall Hi; simpl.
  - unfold accepts in Hi. destruct (f i) as [|code]; [done|].
    by rewrite Hi.
  - apply Forall_cons in Hall as [Hj Hall]. unfold accepts in Hj.
    destruct (f j) as [|code]; [done|]. rewrite Hj. simpl.
    rewrite IH by done. by rewrite <- app_assoc.
Qed.

(** X17. [push] posts the records in order and stops at the first post
    that fails or is not answered with 200: the records before it and the
    failing one are posted, those after it are not, and the error says
    which of the two happened; when every post is answered with 200, all
    records are posted and the result is nil. *)
Theorem push_stops_at_first_failure :
  ∀ (f : containerStartupInfo → PostResult)
    (pre post : list containerStartupInfo) (i : containerStartupInfo)
    (log : list containerStartupInfo),
    Forall (λ i, accepts f i = true) pre →
    (accepts f i = false →
     push (logged f) (pre ++ i :: post) log
     = ((log ++ pre ++ [i])%list, Some (pushErrorOf (f i))))
    ∧ push (logged f) pre log = ((log ++ pre)%list, None).
Proof.
  intros f pre post i log Hall. split.
  - intros Hi. by apply push_logged_failure.
  - by apply push_logged_all.
Qed.

Lemma push_stops_at_first_failure_witness :
  push (logged (λ i, if Start i <? End_ i then PostStatus 200 else PostStatus 400))
    [sampleRecord "a" 100 150; sampleRecord "b" 300 200; sampleRecord "c" 400 450]
    []
  = ([sampleRecord "a" 100 150; sampleRecord "b" 300 200],
     Some (ReceivedStatus 400)).
Proof.
  apply (push_stops_at_first_failure
           (λ i, if Start i <? End_ i then PostStatus 200 else PostStatus 400)
           [sampleRecord "a" 100 150] [sampleRecord "c" 400 450]
           (sampleRecord "b" 300 200) []).
  - repeat constructor.
  - reflexivity.
Defined.

Lemma push_postToExporter infos : ∀ st,
  push postToExporter infos st = ((receiveAll (pushOf <$> infos) st).1, None).
Proof.
  induction infos as [|i infos IH]; intros st; [done|].
  rewrite fmap_cons, receiveAll_cons. cbn [push fst].
  unfold postToExporter. rewrite receiveStartupInfo_push. cbn [fst snd].
  by rewrite IH.
Qed.

Lemma NoDup_fmap_eq {A B} (f : A → B) (l : list A) x y :
  NoDup (f <$> l) → x ∈ l → y ∈ l → f x = f y → x = y.
Proof.
  intros Hnd [i Hi]%list_elem_of_lookup [j Hj]%list_elem_of_lookup Hf.
  assert (i = j) as ->.
  { apply (NoDup_lookup (f <$> l) i j (f x)); [done| |].
    - by rewrite list_lookup_fmap, Hi.
    - by rewrite list_lookup_fmap, Hj, Hf. }
  congruence.
Qed.

(** X18. From the startup file to the lookup: when the collector scans the
    namespace [k8s.io] (directory names are distinct) and pushes what it
    collects to an exporter that has just started, every push succeeds,
    and the record collected for a directory is the one that a scoring run
    finds for the container ID [containerd://<directory name>]. *)
Theorem collected_record_reaches_lookup :
  ∀ dirs dir info (c : ContainerStatus),
    NoDup (dir_Name <$> dirs) → dir ∈ dirs →
    collectEntry defaultContainerdK8sNamespace dir = Some info →
    ContainerID c = containerNamePrefix +:+ dir_Name dir →
    (push postToExporter
       (collect defaultContainerdK8sNamespace (Some dirs)) initState).2 = None
    ∧ storeGet
        (allInfo (push postToExporter
                    (collect defaultContainerdK8sNamespace (Some dirs))
                    initState).1)
        (recordName c)
      = Some info.
Proof.
  intros dirs dir info c Hnd Hdir He Hid.
  rewrite push_postToExporter. split; [done|]. cbn [fst].
  unfold storeGet, recordName, strings.TrimPrefix. rewrite Hid.
  destruct (HasPrefix_append containerNamePrefix (dir_Name dir)) as [-> ->].
  rewrite receiveAll_lookup.
  change (allInfo initState) with (∅ : gmap meta containerStartupInfo).
  rewrite lookup_empty.
  pose proof (collectEntry_Some _ _ _ He) as (Hn & Hns & _).
  assert (info ∈ collect defaultContainerdK8sNamespace (Some dirs)) as Hin.
  { rewrite collect_omap. apply list_elem_of_omap. by exists dir. }
  unfold firstPushed.
  destruct (List.find _ _) as [info'|] eqn:Hfind.
  - apply find_some in Hfind as [Hin' Hid'].
    apply bool_decide_eq_true in Hid'. apply list_elem_of_In in Hin'.
    rewrite collect_omap in Hin'.
    apply list_elem_of_omap in Hin' as (dir' & Hdir' & He').
    pose proof (collectEntry_Some _ _ _ He') as (Hn' & _).
    assert (dir' = dir) as ->; [|congruence].
    apply (NoDup_fmap_eq dir_Name dirs); [done..|].
    rewrite <- Hn'. unfold identity in Hid'. by injection Hid'.
  - exfalso. apply list_elem_of_In in Hin.
    pose proof (find_none _ _ Hfind info Hin) as Hf. simpl in Hf.
    apply bool_decide_eq_false in Hf. apply Hf.
    unfold identity. by rewrite Hn, Hns.
Qed.

Lemma collected_record_reaches_lookup_witness :
  storeGet
    (allInfo
       (push postToExporter
          (collect defaultContainerdK8sNamespace
             (Some [ {| dir_Name := "4f2a";
                        dir_Startup :=
                          Content ("100" +:+ String newline "150") |} ]))
          initState).1)
    (recordName {| cs_Name := "app"; ContainerID := "containerd://4f2a" |})
  = Some {| Name := "4f2a"; Namespace := defaultContainerdK8sNamespace;
            Start := 100; End_ := 150; Type_ := "" |}.
Proof.
  apply (collected_record_reaches_lookup
           [ {| dir_Name := "4f2a";
                dir_Startup := Content ("100" +:+ String newline "150") |} ]
           {| dir_Name := "4f2a";
              dir_Startup := Content ("100" +:+ String newline "150") |}).
  - repeat constructor. by intros ?%elem_of_nil.
  - left.
  - reflexivity.
  - reflexivity.
Defined.

Lemma append_cons a s t : String a s +:+ t = String a (s +:+ t).
Proof. done. Qed.

Lemma append_nil_l s : "" +:+ s = s.
Proof. done. Qed.

Lemma onlyFrom_cons cutset a s :
  onlyFrom cutset (String a s) = strings.inCutset a cutset && onlyFrom cutset s.
Proof. done. Qed.

Lemma TrimLeft_only cutset pad :
  onlyFrom cutset pad = true → strings.TrimLeft pad cutset = "".
Proof.
  induction pad as [|a pad IH]; [done|].
  rewrite onlyFrom_cons. intros [Ha Hp]%andb_true_iff.
  cbn [strings.TrimLeft]. rewrite Ha. by apply IH.
Qed.

Lemma TrimRight_only cutset pad :
  onlyFrom cutset pad = true → strings.TrimRight pad cutset = "".
Proof.
  induction pad as [|a pad IH]; [done|].
  rewrite onlyFrom_cons. intros [Ha Hp]%andb_true_iff.
  cbn [strings.TrimRight]. rewrite (IH Hp). by rewrite Ha.
Qed.

Lemma TrimLeft_pad_l cutset pad s :
  onlyFrom cutset pad = true →
  strings.TrimLeft (pad +:+ s) cutset = strings.TrimLeft s cutset.
Proof.
  induction pad as [|a pad IH]; [done|].
  rewrite onlyFrom_cons. intros [Ha Hp]%andb_true_iff.
  rewrite append_cons. cbn [strings.TrimLeft]. rewrite Ha. by apply IH.
Qed.

Lemma TrimRight_pad_r cutset pad t :
  onlyFrom cutset pad = true →
  strings.TrimRight (t +:+ pad) cutset = strings.TrimRight t cutset.
Proof.
  intros Hp. induction t as [|a t IH].
  - rewrite append_nil_l. by apply TrimRight_only.
  - rewrite append_cons. cbn [strings.TrimRight]. by rewrite IH.
Qed.

Lemma TrimLeft_pad_r cutset pad s :
  onlyFrom cutset pad = true →
  strings.TrimLeft (s +:+ pad) cutset = strings.TrimLeft s cutset +:+ pad
  ∨ (strings.TrimLeft (s +:+ pad) cutset = ""
     ∧ strings.TrimLeft s cutset = "").
Proof.
  intros Hp. induction s as [|a s IH].
  - right. rewrite append_nil_l. split; [by apply TrimLeft_only|done].
  - rewrite append_cons. cbn [strings.TrimLeft].
    destruct (strings.inCutset a cutset); [done|]. by left.
Qed.

Lemma Trim_pad cutset pad1 pad2 s :
  onlyFrom cutset pad1 = true → onlyFrom cutset pad2 = true →
  strings.Trim (pad1 +:+ s +:+ pad2) cutset = strings.Trim s cutset.
Proof.
  intros H1 H2. unfold strings.Trim. rewrite TrimLeft_pad_l by done.
  destruct (TrimLeft_pad_r cutset pad2 s H2) as [->|[-> ->]]; [|done].
  by apply TrimRight_pad_r.
Qed.

(** X19. Blanks around the content of a startup file do not matter: with
    any spaces, tabs and newlines put before and after the bytes of the
    file, the collector reads the same record, or skips the directory all
    the same. *)
Theorem collectEntry_ignores_surrounding_blanks :
  ∀ namespace (dirName bs pad1 pad2 : string),
    onlyFrom blanks pad1 = true → onlyFrom blanks pad2 = true →
    collectEntry namespace
      {| dir_Name := dirName; dir_Startup := Content (pad1 +:+ bs +:+ pad2) |}
    = collectEntry namespace
        {| dir_Name := dirName; dir_Startup := Content bs |}.
Proof.
  intros namespace dirName bs pad1 pad2 H1 H2.
  unfold collectEntry. cbn [dir_Startup dir_Name]. cbv zeta.
  by rewrite Trim_pad.
Qed.

Lemma collectEntry_ignores_surrounding_blanks_witness :
  collectEntry "k8s.io"
    {| dir_Name := "4f2a";
       dir_Startup :=
         Content (String newline " " +:+ ("100" +:+ String newline "150")
                  +:+ String newline (String newline "")) |}
  = collectEntry "k8s.io"
      {| dir_Name := "4f2a";
         dir_Startup := Content ("100" +:+ String newline "150") |}.
Proof.
  apply (collectEntry_ignores_surrounding_blanks "k8s.io" "4f2a"
           ("100" +:+ String newline "150")
           (String newline " ") (String newline (String newline "")));
    reflexivity.
Defined.

End Collector.
